(** * RLSP: recurrent latent space propagation for video super-resolution

    A shallow embedding of [VSR/Backend/Torch/Models/Rlsp.py]: the cell,
    the network, and the training and evaluation steps of the [RLSP] model,
    over an abstract tensor runtime.

    - Python exceptions are values of [exn]; fallible pure code lives in
      [res], code with side effects in the state-and-exception monad [M].
    - The tensor runtime (torch, numpy) and the helpers of the framework
      that the file imports ([EasyConv2d], [SpaceToDepth], [upsample],
      [Metrics.psnr], [get_writer]) are the fields of the class [Torch].
    - [train] and [eval] start from the lists [frames] and [labels] that
      their first lines split the input tensors into.
    - A forward pass of [self.rlsp], the optimizer calls and the calls of
      the summary writer append an [event] to the trace of the [world], so
      that what a step is fed can be stated.
    - [SymTorch] is a concrete runtime: tensors are terms that carry their
      shape, operations check shapes the way torch does. *)

From Stdlib Require Import QArith.QArith_base.
From stdpp Require Import gmap strings list fin_maps.

Local Close Scope Q_scope.
Local Open Scope string_scope.
Local Open Scope list_scope.
Local Open Scope nat_scope.

(** ** Python exceptions and the two monads *)

Inductive exn : Type :=
  | IndexError      (* list index out of range *)
  | TypeError       (* 'NoneType' object is not subscriptable *)
  | AttributeError  (* 'int' object has no attribute ... *)
  | KeyError        (* missing key of a dict *)
  | RuntimeError.   (* raised inside the tensor runtime *)

Inductive res (A : Type) : Type :=
  | Ok (a : A)
  | Err (e : exn).
Arguments Ok {A} a.
Arguments Err {A} e.

#[global] Instance res_ret : MRet res := λ A a, Ok a.
#[global] Instance res_bind : MBind res := λ A B f m,
  match m with
  | Ok a => f a
  | Err e => Err e
  end.
#[global] Instance res_fmap : FMap res := λ A B f m,
  match m with
  | Ok a => Ok (f a)
  | Err e => Err e
  end.

(** [l[i]] on a Python list, for an index that is not negative. *)
Definition py_index {A} (l : list A) (i : nat) : res A :=
  match l !! i with
  | Some x => Ok x
  | None => Err IndexError
  end.

(** [l[z]] on a Python list, for any integer [z]: a negative index counts
    from the end of the list. *)
Definition py_getitem {A} (l : list A) (z : Z) : res A :=
  if decide (z < 0)%Z then
    if decide (z + Z.of_nat (length l) < 0)%Z then Err IndexError
    else py_index l (Z.to_nat (z + Z.of_nat (length l)))
  else py_index l (Z.to_nat z).

(** [l[i] = x] on a Python list. *)
Definition py_setitem {A} (l : list A) (i : nat) (x : A) : res (list A) :=
  if decide (i < length l) then Ok (<[i:=x]> l) else Err IndexError.

(** [range(a, b)], empty when [b <= a]. *)
Definition py_range (a b : nat) : list nat := seq a (b - a).

(** ** The tensor runtime *)

(** An [EasyConv2d] layer as [RLSPCell.__init__] configures it; [conv_id]
    names its weights in the parameter store. *)
Record EasyConv2d : Type := mkConv {
  conv_id : nat;
  in_channels : nat;
  out_channels : nat;
  kernel_size : nat;
  activation : option string;
}.

Class Torch : Type := {
  tensor : Type;
  ndarray : Type;
  (* the trainable variables, with their gradients and the optimizer's
     moments *)
  params : Type;
  (* torch; [None] when the runtime raises *)
  shape : tensor → list nat;
  zeros : list nat → tensor;
  zeros_like : tensor → tensor;
  cat : list tensor → option tensor;            (* torch.cat(_, dim=1) *)
  interpolate : tensor → nat → option tensor;   (* F.interpolate(_, scale_factor=_) *)
  pixel_shuffle : tensor → nat → option tensor;
  detach : tensor → tensor;
  add : tensor → tensor → option tensor;
  radd_int : Z → tensor → option tensor;        (* int + tensor *)
  mse_loss : tensor → tensor → option tensor;
  clamp01 : tensor → tensor;                    (* _.clamp(0, 1) *)
  to_numpy : tensor → ndarray;                  (* _.cpu().numpy() *)
  backward : tensor → params → option params;
  zero_grad : params → params;
  adam_step : list (gmap string Q) → params → params;
  (* numpy *)
  np_div : ndarray → nat → ndarray;
  np_mean : list ndarray → ndarray;
  (* helpers of the framework *)
  conv2d : params → EasyConv2d → tensor → option tensor;  (* EasyConv2d.forward *)
  space_to_depth : nat → tensor → option tensor;          (* SpaceToDepth(scale) *)
  upsample : tensor → nat → option tensor;                (* Util.Utility.upsample *)
  psnr : tensor → tensor → option ndarray;                (* Metrics.psnr *)
}.

(** The result of a call into the runtime. *)
Definition rt {A} (o : option A) : res A :=
  match o with
  | Some a => Ok a
  | None => Err RuntimeError
  end.

Definition raises_runtime_error {A} (r : res A) : bool :=
  match r with
  | Err RuntimeError => true
  | _ => false
  end.

Section Rlsp.
Context `{T : Torch}.

(** ** The world: what a call can read and change besides its arguments *)

Inductive event : Type :=
  | EvForward (lr : list tensor) (sr : tensor) (hidden : option tensor)
  | EvZeroGrad
  | EvBackward (loss : tensor)
  | EvStep (groups : list (gmap string Q))
  | EvImage (tag : string) (img : tensor) (step : Z).

Record world : Type := mkWorld {
  w_params : params;                       (* self.trainable_variables() *)
  w_param_groups : list (gmap string Q);   (* self.adam.param_groups *)
  w_writer : bool;                         (* get_writer(self.name) is not None *)
  w_trace : list event;
}.

Definition M (A : Type) : Type := world → res A * world.

#[global] Instance M_ret : MRet M := λ A a w, (Ok a, w).
#[global] Instance M_bind : MBind M := λ A B f m w,
  match m w with
  | (Ok a, w') => f a w'
  | (Err e, w') => (Err e, w')
  end.

Definition log (w : world) (e : event) : world :=
  mkWorld (w_params w) (w_param_groups w) (w_writer w) (w_trace w ++ [e]).

Definition lift {A} (r : res A) : M A := λ w, (r, w).
Definition get_world : M world := λ w, (Ok w, w).
Definition emit (e : event) : M unit := λ w, (Ok tt, log w e).
Definition set_params (p : params) : M unit := λ w,
  (Ok tt, mkWorld p (w_param_groups w) (w_writer w) (w_trace w)).
Definition set_param_groups (g : list (gmap string Q)) : M unit := λ w,
  (Ok tt, mkWorld (w_params w) g (w_writer w) (w_trace w)).

(** ** RLSPCell *)

Record RLSPCell : Type := mkCell {
  cell : list EasyConv2d;   (* the layers of nn.Sequential *)
  hidden : EasyConv2d;
  exit : EasyConv2d;
}.

Definition RLSPCell_init (in_ch out_ch hidden_ch layers : nat) : RLSPCell :=
  let cell :=
    mkConv 0 in_ch hidden_ch 3 (Some "relu")
    :: map (λ i, mkConv i hidden_ch hidden_ch 3 (Some "relu"))
           (py_range 1 (layers - 1)) in
  {| cell := cell;
     hidden := mkConv (length cell) hidden_ch hidden_ch 3 (Some "relu");
     exit := mkConv (S (length cell)) hidden_ch out_ch 3 None |}.

(** [nn.Sequential.forward]: the layers in order. *)
Fixpoint Sequential_forward (p : params) (ls : list EasyConv2d) (x : tensor)
  : res tensor :=
  match ls with
  | [] => Ok x
  | l :: ls' => y ← rt (conv2d p l x); Sequential_forward p ls' y
  end.

Definition RLSPCell_forward (p : params) (c : RLSPCell)
    (lr_frames : list tensor) (feedback hidden_state : tensor)
  : res (tensor * tensor) :=
  lr ← rt (cat lr_frames);
  inputs ← rt (cat [lr; hidden_state; feedback]);
  x ← Sequential_forward p (cell c) inputs;
  next_hidden_state ← rt (conv2d p (hidden c) x);
  residual ← rt (conv2d p (exit c) x);
  Ok (residual, next_hidden_state).

(** ** RlspNet *)

Record RlspNet : Type := mkNet {
  rlspcell : RLSPCell;
  shuffle : nat;   (* SpaceToDepth(scale) *)
  net_f : nat;
  net_d : nat;
  net_s : nat;
}.

Definition RlspNet_init (scale channel depth layers filters : nat) : RlspNet :=
  let in_ch := channel * depth + filters + channel * scale ^ 2 in
  {| rlspcell := RLSPCell_init in_ch (channel * scale ^ 2) filters layers;
     shuffle := scale;
     net_f := filters;
     net_d := depth;
     net_s := scale |}.

(** [hidden] of [RlspNet.forward] when the caller passes [None]. *)
Definition initial_hidden (net : RlspNet) (lr : list tensor) : res tensor :=
  lr0 ← py_index lr 0;
  shp ← py_setitem (shape lr0) 1 (net_f net);
  Ok (zeros shp).

Definition RlspNet_forward (p : params) (net : RlspNet)
    (lr : list tensor) (sr : tensor) (hidden : option tensor)
  : res (tensor * tensor) :=
  hidden ← match hidden with
           | None => initial_hidden net lr
           | Some h => Ok h
           end;
  mid ← py_index lr (net_d net / 2);
  center ← rt (interpolate mid (net_s net));
  shuffled ← rt (space_to_depth (shuffle net) sr);
  let feedback := detach shuffled in
  '(res, next) ← RLSPCell_forward p (rlspcell net) lr feedback hidden;
  up ← rt (pixel_shuffle res (net_s net));
  out ← rt (add center up);
  Ok (out, next).

(** ** RLSP *)

Record RLSP : Type := mkRLSP {
  scale : nat;     (* set by SuperResolution.__init__ *)
  channel : nat;
  rlsp : RlspNet;
  clips : nat;
}.

Definition RLSP_init (scale channel clips layers filters : nat) : RLSP :=
  {| scale := scale;
     channel := channel;
     rlsp := RlspNet_init scale channel clips layers filters;
     clips := clips |}.

(** [torch.optim.Adam(self.trainable_variables(), 1e-4)]: one parameter
    group. *)
Definition RLSP_init_param_groups : list (gmap string Q) :=
  [ {[ "lr" := (1 # 10000)%Q ]} ].

(** The value of an accumulator that starts as the Python integer [0]. *)
Inductive pynum : Type :=
  | PyInt (z : Z)
  | PyTensor (t : tensor).

(** [acc += t] *)
Definition py_iadd (acc : pynum) (t : tensor) : res pynum :=
  match acc with
  | PyInt z => PyTensor <$> rt (radd_int z t)
  | PyTensor a => PyTensor <$> rt (add a t)
  end.

(** Looking up a tensor method ([backward], [detach], [cpu]) on [acc]. *)
Definition py_tensor_method (acc : pynum) : res tensor :=
  match acc with
  | PyInt _ => Err AttributeError
  | PyTensor t => Ok t
  end.

(** [if learning_rate:] for [None] or a float. *)
Definition py_truthy (learning_rate : option Q) : bool :=
  match learning_rate with
  | None => false
  | Some q => negb (Qnum q =? 0)%Z
  end.

(** [self.rlsp(lr, sr, hidden)] *)
Definition call_rlsp (self : RLSP) (lr : list tensor) (sr : tensor)
    (hidden : option tensor) : M (tensor * tensor) :=
  emit (EvForward lr sr hidden);;
  w ← get_world;
  lift (RlspNet_forward (w_params w) (rlsp self) lr sr hidden).

(** [[frames[i - self.clips // 2 + j] for j in range(self.clips)]]; the
    index is an integer, negative where [i + j < self.clips // 2]. *)
Definition lr_group_at (self : RLSP) (frames : list tensor) (i : nat)
  : res (list tensor) :=
  mapM (λ j, py_getitem frames
               (Z.of_nat i - Z.of_nat (clips self / 2) + Z.of_nat j))
       (py_range 0 (clips self)).

(** [for i in idxs: st = body(st, i)] *)
Fixpoint for_each {S} (body : S → nat → M S) (idxs : list nat) (st : S) : M S :=
  match idxs with
  | [] => mret st
  | i :: idxs' => st' ← body st i; for_each body idxs' st'
  end.

(** *** RLSP.train *)

Record train_state : Type := mkTrain {
  total_loss : pynum;
  image_loss : pynum;
  last_hidden : option tensor;
  last_sr : tensor;
}.

Definition train_body (self : RLSP) (frames labels : list tensor)
    (st : train_state) (i : nat) : M train_state :=
  lr_group ← lift (lr_group_at self frames i);
  '(sr, hidden) ← call_rlsp self lr_group (last_sr st) (last_hidden st);
  label ← lift (py_index labels i);
  l2_image ← lift (rt (mse_loss sr label));
  let loss := l2_image in
  total ← lift (py_iadd (total_loss st) loss);
  image ← lift (py_iadd (image_loss st) (detach l2_image));
  mret {| total_loss := total;
          image_loss := image;
          last_hidden := Some hidden;
          last_sr := detach sr |}.

Definition adam_zero_grad : M unit :=
  emit EvZeroGrad;;
  w ← get_world;
  set_params (zero_grad (w_params w)).

Definition tensor_backward (loss : pynum) : M unit :=
  t ← lift (py_tensor_method loss);
  emit (EvBackward t);;
  w ← get_world;
  p ← lift (rt (backward t (w_params w)));
  set_params p.

Definition adam_step_call : M unit :=
  w ← get_world;
  emit (EvStep (w_param_groups w));;
  set_params (adam_step (w_param_groups w) (w_params w)).

Definition train (self : RLSP) (frames labels : list tensor)
    (learning_rate : option Q) : M (gmap string ndarray) :=
  (if py_truthy learning_rate then
     w ← get_world;
     set_param_groups
       (map (λ g, match learning_rate with
                  | Some q => <["lr" := q]> g
                  | None => g
                  end) (w_param_groups w))
   else mret tt);;
  first ← lift (py_index frames 0);
  up ← lift (rt (upsample first (scale self)));
  let st0 := {| total_loss := PyInt 0;
                image_loss := PyInt 0;
                last_hidden := None;
                last_sr := zeros_like up |} in
  st ← for_each (train_body self frames labels)
         (py_range (clips self / 2) (length frames - clips self / 2)) st0;
  adam_zero_grad;;
  tensor_backward (total_loss st);;
  adam_step_call;;
  total ← lift (py_tensor_method (total_loss st));
  image ← lift (py_tensor_method (image_loss st));
  mret (<["image_loss" := np_div (to_numpy image) (length frames)]>
        (<["total_loss" := np_div (to_numpy (detach total)) (length frames)]> ∅)).

(** *** RLSP.eval *)

Record eval_state : Type := mkEval {
  psnrs : list ndarray;
  predicts : list ndarray;
  e_last_sr : tensor;
  e_last_hidden : option tensor;
  e_i : nat;
}.

Definition eval_body (self : RLSP) (frames : list tensor)
    (labels : option (list tensor)) (st : eval_state) (i : nat)
  : M eval_state :=
  lr_group ← lift (lr_group_at self frames i);
  '(sr, hidden) ← call_rlsp self lr_group (e_last_sr st) (e_last_hidden st);
  ps ← match labels with
       | Some ls =>
           label ← lift (py_index ls i);
           v ← lift (rt (psnr sr label));
           mret (psnrs st ++ [v])
       | None => mret (psnrs st)
       end;
  mret {| psnrs := ps;
          predicts := predicts st ++ [to_numpy (detach sr)];
          e_last_sr := detach sr;
          e_last_hidden := e_last_hidden st;   (* the loop does not assign it *)
          e_i := i |}.

Definition eval (self : RLSP) (frames : list tensor)
    (labels : option (list tensor)) (kwargs : gmap string Z)
  : M (list ndarray * gmap string ndarray) :=
  first ← lift (py_index frames 0);
  up ← lift (rt (upsample first (scale self)));
  let st0 := {| psnrs := [];
                predicts := [];
                e_last_sr := zeros_like up;
                e_last_hidden := None;
                e_i := 0 |} in
  st ← for_each (eval_body self frames labels)
         (py_range (clips self / 2) (length frames - clips self / 2)) st0;
  let metrics : gmap string ndarray := <["psnr" := np_mean (psnrs st)]> ∅ in
  w ← get_world;
  (if w_writer w then
     step ← lift (match kwargs !! "epoch" with
                  | Some s => Ok s
                  | None => Err KeyError
                  end);
     emit (EvImage "clean" (clamp01 (e_last_sr st)) step);;
     label ← lift (match labels with
                   | Some ls => py_index ls (e_i st)
                   | None => Err TypeError
                   end);
     emit (EvImage "label" label step)
   else mret tt);;
  mret (predicts st, metrics).

(** The forward passes recorded in a trace, in order. *)
Definition forwards (tr : list event)
  : list (list tensor * tensor * option tensor) :=
  omap (λ e, match e with
             | EvForward lr sr h => Some (lr, sr, h)
             | _ => None
             end) tr.

(** ** Describing a run

    The definitions from here to the end of the section embed no code; the
    statements about [train] and [eval] are written with them.

    Both loop bodies build the window, call the network on it with the
    feedback frame and hidden state of the loop state, and then update the
    loop state from what the network returned; [loop_body] is that shape,
    [train_post] and [eval_post] are the two updates ([train_body_shape]
    and [eval_body_shape] below). *)

Definition loop_body {S} (self : RLSP) (frames : list tensor)
    (sr_of : S → tensor) (hid_of : S → option tensor)
    (post : S → nat → tensor → tensor → res S) (st : S) (i : nat) : M S :=
  lr_group ← lift (lr_group_at self frames i);
  '(sr, hidden) ← call_rlsp self lr_group (sr_of st) (hid_of st);
  lift (post st i sr hidden).

Definition train_post (labels : list tensor) (st : train_state) (i : nat)
    (sr hidden : tensor) : res train_state :=
  label ← py_index labels i;
  l2_image ← rt (mse_loss sr label);
  total ← py_iadd (total_loss st) l2_image;
  image ← py_iadd (image_loss st) (detach l2_image);
  Ok (mkTrain total image (Some hidden) (detach sr)).

Definition eval_post (labels : option (list tensor)) (st : eval_state)
    (i : nat) (sr hidden : tensor) : res eval_state :=
  ps ← match labels with
       | Some ls =>
           label ← py_index ls i;
           v ← rt (psnr sr label);
           Ok (psnrs st ++ [v])
       | None => Ok (psnrs st)
       end;
  Ok (mkEval ps (predicts st ++ [to_numpy (detach sr)]) (detach sr)
        (e_last_hidden st) i).

(** One completed forward pass of a loop: the index, what the network was
    fed and what it returned. *)
Record step : Type := mkStep {
  s_i : nat;
  s_lr : list tensor;
  s_sr : tensor;
  s_hidden : option tensor;
  s_out : tensor;
  s_next : tensor;
}.

Definition step_call (s : step) : list tensor * tensor * option tensor :=
  (s_lr s, s_sr s, s_hidden s).
Definition step_event (s : step) : event :=
  EvForward (s_lr s) (s_sr s) (s_hidden s).

(** [run ... st idxs steps st']: the loop over [idxs] from state [st]
    completes with the forward passes [steps] and ends in state [st']. *)
Inductive run {S} (p : params) (self : RLSP) (frames : list tensor)
    (sr_of : S → tensor) (hid_of : S → option tensor)
    (post : S → nat → tensor → tensor → res S)
  : S → list nat → list step → S → Prop :=
  | run_nil st : run p self frames sr_of hid_of post st [] [] st
  | run_cons st i idxs g out next st1 steps st' :
      lr_group_at self frames i = Ok g →
      RlspNet_forward p (rlsp self) g (sr_of st) (hid_of st) = Ok (out, next) →
      post st i out next = Ok st1 →
      run p self frames sr_of hid_of post st1 idxs steps st' →
      run p self frames sr_of hid_of post st (i :: idxs)
        (mkStep i g (sr_of st) (hid_of st) out next :: steps) st'.

(** How a step of the loop over [i] from state [st] raises [e], and what it
    leaves in the trace before it does. *)
Definition step_fails {S} (p : params) (self : RLSP) (frames : list tensor)
    (sr_of : S → tensor) (hid_of : S → option tensor)
    (post : S → nat → tensor → tensor → res S)
    (st : S) (i : nat) (e : exn) (tail : list event) : Prop :=
  (lr_group_at self frames i = Err e ∧ tail = []) ∨
  ∃ g, lr_group_at self frames i = Ok g ∧
       tail = [EvForward g (sr_of st) (hid_of st)] ∧
       (RlspNet_forward p (rlsp self) g (sr_of st) (hid_of st) = Err e ∨
        ∃ out next,
          RlspNet_forward p (rlsp self) g (sr_of st) (hid_of st) = Ok (out, next) ∧
          post st i out next = Err e).

(** What a loop over [idxs] from [st] results in, and the events it adds
    to the trace. *)
Inductive outcome {S} (p : params) (self : RLSP) (frames : list tensor)
    (sr_of : S → tensor) (hid_of : S → option tensor)
    (post : S → nat → tensor → tensor → res S) (st : S)
  : list nat → res S → list event → Prop :=
  | outcome_ok idxs steps st' :
      run p self frames sr_of hid_of post st idxs steps st' →
      outcome p self frames sr_of hid_of post st idxs (Ok st')
        (map step_event steps)
  | outcome_err pre i rest steps st1 e tail :
      run p self frames sr_of hid_of post st pre steps st1 →
      step_fails p self frames sr_of hid_of post st1 i e tail →
      outcome p self frames sr_of hid_of post st (pre ++ i :: rest) (Err e)
        (map step_event steps ++ tail).

(** [threaded p net upd sr h calls]: the first call of [calls] is fed the
    feedback frame [sr] and the hidden state [h]; a call that is followed by
    another one returned [(out, next)], and the one after it is fed
    [detach out] and [upd h next]. *)
Fixpoint threaded (p : params) (net : RlspNet)
    (upd : option tensor → tensor → option tensor)
    (sr : tensor) (h : option tensor)
    (calls : list (list tensor * tensor * option tensor)) : Prop :=
  match calls with
  | [] => True
  | (g, sr', h') :: rest =>
      sr' = sr ∧ h' = h ∧
      match rest with
      | [] => True
      | _ :: _ =>
          ∃ out next, RlspNet_forward p net g sr h = Ok (out, next) ∧
                      threaded p net upd (detach out) (upd h next) rest
      end
  end.

(** The events a call added to the trace. *)
Definition new_events (w w' : world) : list event :=
  drop (length (w_trace w)) (w_trace w').

(** [frames[a], ..., frames[b]] *)
Definition frames_from_to (frames : list tensor) (a b : nat) : list tensor :=
  take (S b - a) (drop a frames).

(** [self.adam.param_groups] after [if learning_rate: ...]. *)
Definition set_lr (learning_rate : option Q) (groups : list (gmap string Q))
  : list (gmap string Q) :=
  match learning_rate with
  | Some q => if py_truthy learning_rate then map (<["lr" := q]>) groups else groups
  | None => groups
  end.

(** What [train] does with the result [rl] of its loop, which added the
    events [evs]: the result [r] of the call, all events [new] of the call,
    and the parameters [p'] it leaves. *)
Definition train_after_loop (frames : list tensor) (groups : list (gmap string Q))
    (p : params) (rl : res train_state) (evs : list event)
    (r : res (gmap string ndarray)) (new : list event) (p' : params) : Prop :=
  match rl with
  | Err e => r = Err e ∧ new = evs ∧ p' = p
  | Ok st =>
      match total_loss st with
      | PyInt _ =>
          r = Err AttributeError ∧ new = evs ++ [EvZeroGrad] ∧ p' = zero_grad p
      | PyTensor total =>
          match backward total (zero_grad p) with
          | None =>
              r = Err RuntimeError ∧
              new = evs ++ [EvZeroGrad; EvBackward total] ∧ p' = zero_grad p
          | Some p1 =>
              new = evs ++ [EvZeroGrad; EvBackward total; EvStep groups] ∧
              p' = adam_step groups p1 ∧
              match image_loss st with
              | PyInt _ => r = Err AttributeError
              | PyTensor image =>
                  r = Ok (<["image_loss" := np_div (to_numpy image) (length frames)]>
                          (<["total_loss" :=
                               np_div (to_numpy (detach total)) (length frames)]> ∅))
              end
          end
      end
  end.

(** Likewise for [eval]. *)
Definition eval_after_loop (labels : option (list tensor))
    (kwargs : gmap string Z) (writer : bool)
    (rl : res eval_state) (evs : list event)
    (r : res (list ndarray * gmap string ndarray)) (new : list event) : Prop :=
  match rl with
  | Err e => r = Err e ∧ new = evs
  | Ok st =>
      if writer then
        match kwargs !! "epoch" with
        | None => r = Err KeyError ∧ new = evs
        | Some step =>
            let clean := EvImage "clean" (clamp01 (e_last_sr st)) step in
            match labels with
            | None => r = Err TypeError ∧ new = evs ++ [clean]
            | Some ls =>
                match ls !! e_i st with
                | None => r = Err IndexError ∧ new = evs ++ [clean]
                | Some label =>
                    r = Ok (predicts st, <["psnr" := np_mean (psnrs st)]> ∅) ∧
                    new = evs ++ [clean; EvImage "label" label step]
                end
            end
        end
      else r = Ok (predicts st, <["psnr" := np_mean (psnrs st)]> ∅) ∧ new = evs
  end.

(** The images a trace hands to the summary writer, in order. *)
Definition images (tr : list event) : list (string * tensor * Z) :=
  omap (λ e, match e with
             | EvImage tag img step => Some (tag, img, step)
             | _ => None
             end) tr.

(** The events of the optimizer: [zero_grad], [backward], [step]. *)
Definition is_optimizer_event (e : event) : bool :=
  match e with
  | EvZeroGrad | EvBackward _ | EvStep _ => true
  | EvForward _ _ _ | EvImage _ _ _ => false
  end.

(** The shapes in the state of the evaluation loop: the feedback frame has
    the shape [sr_shape], there is no hidden state. *)
Definition eval_shapes (sr_shape : list nat) (st : eval_state) : Prop :=
  shape (e_last_sr st) = sr_shape ∧ e_last_hidden st = None.

(** The shapes in the state of the training loop: those of the feedback
    frame and of the hidden state, if there is one; the two losses are
    scalars once they are tensors. *)
Definition train_shapes (sr_shape hidden_shape : list nat) (st : train_state)
  : Prop :=
  shape (last_sr st) = sr_shape ∧
  (∀ h, last_hidden st = Some h → shape h = hidden_shape) ∧
  (∀ t, total_loss st = PyTensor t → shape t = []) ∧
  (∀ t, image_loss st = PyTensor t → shape t = []).

(** Python's [sum]: the accumulator starts as the integer [0]. *)
Definition py_sum (ts : list tensor) : res pynum :=
  foldl (λ acc t, a ← acc; py_iadd a t) (Ok (PyInt 0)) ts.

End Rlsp.

(** ** A concrete runtime: symbolic tensors that carry their shape

    A tensor is the term that computed it together with its shape
    [[N; C; H; W]].  An operation gives [None] where torch rejects the
    shapes (here without broadcasting), and otherwise builds the term of
    its result. *)

#[warnings="-register-all"] Inductive sym : Type :=
  | Sym (op : string) (ints : list Z) (args : list sym) (shp : list nat).

Definition sym_shape (t : sym) : list nat :=
  match t with Sym _ _ _ s => s end.

Definition frame (k : Z) (shp : list nat) : sym := Sym "frame" [k] [] shp.
Definition label (k : Z) (shp : list nat) : sym := Sym "label" [k] [] shp.

Definition channels (s : list nat) : nat :=
  match s with _ :: c :: _ => c | _ => 0 end.

Definition same_but_channel (a b : list nat) : bool :=
  match a, b with
  | n :: _ :: r, n' :: _ :: r' => bool_decide (n = n' ∧ r = r')
  | _, _ => false
  end.

Definition sym_cat (ts : list sym) : option sym :=
  match ts with
  | [] => None
  | t0 :: _ =>
      if forallb (λ t, same_but_channel (sym_shape t0) (sym_shape t)) ts
      then Some (Sym "cat" [] ts
                 (<[1 := sum_list (map (λ t, channels (sym_shape t)) ts)]>
                    (sym_shape t0)))
      else None
  end.

Definition sym_resize (op : string) (t : sym) (k : nat) : option sym :=
  match sym_shape t with
  | [n; c; h; w] => Some (Sym op [Z.of_nat k] [t] [n; c; k * h; k * w])
  | _ => None
  end.

Definition sym_pixel_shuffle (t : sym) (k : nat) : option sym :=
  match sym_shape t with
  | [n; c; h; w] =>
      if bool_decide (0 < k ∧ c `mod` k ^ 2 = 0)
      then Some (Sym "pixel_shuffle" [Z.of_nat k] [t] [n; c `div` k ^ 2; k * h; k * w])
      else None
  | _ => None
  end.

Definition sym_space_to_depth (k : nat) (t : sym) : option sym :=
  match sym_shape t with
  | [n; c; h; w] =>
      if bool_decide (0 < k ∧ h `mod` k = 0 ∧ w `mod` k = 0)
      then Some (Sym "space_to_depth" [Z.of_nat k] [t] [n; c * k ^ 2; h `div` k; w `div` k])
      else None
  | _ => None
  end.

Definition sym_binop (op : string) (out : list nat → list nat) (a b : sym)
  : option sym :=
  if bool_decide (sym_shape a = sym_shape b)
  then Some (Sym op [] [a; b] (out (sym_shape a)))
  else None.

Definition sym_conv2d (p : nat) (l : EasyConv2d) (t : sym) : option sym :=
  match sym_shape t with
  | [n; c; h; w] =>
      if bool_decide (c = in_channels l)
      then Some (Sym "conv" [Z.of_nat (conv_id l); Z.of_nat p] [t]
                 [n; out_channels l; h; w])
      else None
  | _ => None
  end.

#[export] Instance SymTorch : Torch := {|
  tensor := sym;
  ndarray := sym;
  params := nat;
  shape := sym_shape;
  zeros := λ s, Sym "zeros" [] [] s;
  zeros_like := λ t, Sym "zeros" [] [] (sym_shape t);
  cat := sym_cat;
  interpolate := sym_resize "interpolate";
  pixel_shuffle := sym_pixel_shuffle;
  detach := λ t, Sym "detach" [] [t] (sym_shape t);
  add := sym_binop "add" id;
  radd_int := λ z t, Some (Sym "radd" [z] [t] (sym_shape t));
  mse_loss := sym_binop "mse_loss" (λ _, []);
  clamp01 := λ t, Sym "clamp" [] [t] (sym_shape t);
  to_numpy := λ t, Sym "numpy" [] [t] (sym_shape t);
  backward := λ _ p, Some p;
  zero_grad := λ p, p;
  adam_step := λ _ p, S p;
  np_div := λ a n, Sym "div" [Z.of_nat n] [a] (sym_shape a);
  np_mean := λ l, Sym "mean" [] l [];
  conv2d := sym_conv2d;
  space_to_depth := sym_space_to_depth;
  upsample := sym_resize "upsample";
  psnr := sym_binop "psnr" (λ _, []);
|}.

(** A sequence of [n] frames of shape [shp]. *)
Definition sym_frames (n : nat) (shp : list nat) : list sym :=
  map (λ k, frame (Z.of_nat k) shp) (seq 0 n).
Definition sym_labels (n : nat) (shp : list nat) : list sym :=
  map (λ k, label (Z.of_nat k) shp) (seq 0 n).

Definition sym_world (writer : bool) : world :=
  mkWorld (0 : @params SymTorch) RLSP_init_param_groups writer [].

(** A model for frames of one channel, upscaled twice, with a cell of
    three layers and four filters. *)
Definition sym_model (clips : nat) : RLSP := RLSP_init 2 1 clips 3 4.

(** Four low-resolution frames of 2 x 2 pixels and their 4 x 4 labels. *)
Definition lr4 : list sym := sym_frames 4 [1; 1; 2; 2].
Definition hr4 : list sym := sym_labels 4 [1; 1; 4; 4].
Definition hr3 : list sym := take 3 hr4.
Definition lr2 : list sym := take 2 lr4.
Definition lr3 : list sym := take 3 lr4.

(** The first forward pass of a call on [lr4] with three clips. *)
Definition first_call : list sym * sym * option sym :=
  (lr3, Sym "zeros" [] [] [1; 1; 4; 4], None).

(** * Facts *)

(** ** The monads *)

Section Facts.
Context `{T : Torch}.

Lemma bind_M_eq {A B} (m : M A) (f : A → M B) (w : world) :
  (m ≫= f) w = match m w with
                | (Ok a, w') => f a w'
                | (Err e, w') => (Err e, w')
                end.
Proof. reflexivity. Qed.

Lemma lift_eq {A} (r : res A) (w : world) : lift r w = (r, w).
Proof. reflexivity. Qed.

Lemma call_rlsp_eq self g sr h w :
  call_rlsp self g sr h w =
  (RlspNet_forward (w_params w) (rlsp self) g sr h, log w (EvForward g sr h)).
Proof. reflexivity. Qed.

(** ** The loop bodies have the shared shape *)

Lemma loop_body_eq {S} self frames (sr_of : S → tensor) hid_of post st i w :
  loop_body self frames sr_of hid_of post st i w =
  match lr_group_at self frames i with
  | Err e => (Err e, w)
  | Ok g =>
      let w1 := log w (EvForward g (sr_of st) (hid_of st)) in
      match RlspNet_forward (w_params w) (rlsp self) g (sr_of st) (hid_of st) with
      | Err e => (Err e, w1)
      | Ok (out, next) => (post st i out next, w1)
      end
  end.
Proof.
  unfold loop_body. rewrite bind_M_eq, lift_eq.
  destruct (lr_group_at self frames i) as [g|e]; [|done].
  rewrite bind_M_eq, call_rlsp_eq. simpl.
  destruct (RlspNet_forward _ _ _ _ _) as [[out next]|e]; done.
Qed.

Lemma train_body_shape self frames labels st i w :
  train_body self frames labels st i w =
  loop_body self frames last_sr last_hidden (train_post labels) st i w.
Proof.
  rewrite loop_body_eq. unfold train_body. rewrite bind_M_eq, lift_eq.
  destruct (lr_group_at self frames i) as [g|e]; [|done].
  rewrite bind_M_eq, call_rlsp_eq. simpl.
  destruct (RlspNet_forward _ _ _ _ _) as [[out next]|e]; [|done].
  unfold train_post. rewrite !bind_M_eq, !lift_eq.
  destruct (py_index labels i) as [lbl|e]; [|done]. simpl.
  rewrite !bind_M_eq, !lift_eq.
  destruct (rt (mse_loss out lbl)) as [l2|e]; [|done]. simpl.
  rewrite !bind_M_eq, !lift_eq.
  destruct (py_iadd (total_loss st) l2) as [tot|e]; [|done]. simpl.
  rewrite !bind_M_eq, !lift_eq.
  destruct (py_iadd (image_loss st) (detach l2)) as [img|e]; done.
Qed.

Lemma eval_body_shape self frames labels st i w :
  eval_body self frames labels st i w =
  loop_body self frames e_last_sr e_last_hidden (eval_post labels) st i w.
Proof.
  rewrite loop_body_eq. unfold eval_body. rewrite bind_M_eq, lift_eq.
  destruct (lr_group_at self frames i) as [g|e]; [|done].
  rewrite bind_M_eq, call_rlsp_eq. simpl.
  destruct (RlspNet_forward _ _ _ _ _) as [[out next]|e]; [|done].
  unfold eval_post. destruct labels as [ls|]; [|done].
  rewrite !bind_M_eq, !lift_eq.
  destruct (py_index ls i) as [lbl|e]; [|done]. simpl.
  rewrite !bind_M_eq, !lift_eq.
  destruct (rt (psnr out lbl)) as [v|e]; done.
Qed.

(** ** Every run of a loop is an [outcome] *)

Section Loop.
Context {S : Type} (self : RLSP) (frames : list tensor).
Context (sr_of : S → tensor) (hid_of : S → option tensor).
Context (post : S → nat → tensor → tensor → res S).
Context (body : S → nat → M S).
Hypothesis body_shape :
  ∀ st i w, body st i w = loop_body self frames sr_of hid_of post st i w.

Lemma world_trace_nil w :
  w = mkWorld (w_params w) (w_param_groups w) (w_writer w) (w_trace w ++ []).
Proof. destruct w; simpl. by rewrite app_nil_r. Qed.

Lemma for_each_outcome idxs : ∀ st w r w',
  for_each body idxs st w = (r, w') →
  ∃ evs,
    w' = mkWorld (w_params w) (w_param_groups w) (w_writer w) (w_trace w ++ evs) ∧
    outcome (w_params w) self frames sr_of hid_of post st idxs r evs.
Proof.
  induction idxs as [|i idxs IH]; intros st w r w' Hrun.
  - simpl in Hrun. injection Hrun as <- <-. exists []. split.
    + apply world_trace_nil.
    + apply (outcome_ok _ _ _ _ _ _ _ [] []). constructor.
  - simpl in Hrun. rewrite bind_M_eq, body_shape, loop_body_eq in Hrun.
    destruct (lr_group_at self frames i) as [g|e] eqn:Hg.
    2:{ injection Hrun as <- <-. exists []. split; [apply world_trace_nil|].
        apply (outcome_err _ _ _ _ _ _ _ [] i idxs [] st e []); [constructor|].
        by left. }
    simpl in Hrun.
    destruct (RlspNet_forward _ _ _ _ _) as [[out next]|e] eqn:Hfw.
    2:{ injection Hrun as <- <-. eexists. split; [reflexivity|].
        apply (outcome_err _ _ _ _ _ _ _ [] i idxs [] st e); [constructor|].
        right. exists g. split_and!; [done..|]. by left. }
    destruct (post st i out next) as [st1|e] eqn:Hpost.
    2:{ injection Hrun as <- <-. eexists. split; [reflexivity|].
        apply (outcome_err _ _ _ _ _ _ _ [] i idxs [] st e); [constructor|].
        right. exists g. split_and!; [done..|]. right. by exists out, next. }
    apply IH in Hrun as (evs & -> & Hout). simpl in *.
    exists (EvForward g (sr_of st) (hid_of st) :: evs). split.
    { by rewrite <- app_assoc. }
    inversion Hout as [idxs' steps st' Hr|pre j rest steps st2 e tail Hr Hf];
      subst.
    + apply (outcome_ok _ _ _ _ _ _ _ (i :: idxs)
               (mkStep i g (sr_of st) (hid_of st) out next :: steps)).
      by econstructor.
    + apply (outcome_err _ _ _ _ _ _ _ (i :: pre) j rest
               (mkStep i g (sr_of st) (hid_of st) out next :: steps) st2 e tail);
        [by econstructor | done].
Qed.

End Loop.

(** ** What a completed loop did *)

Section Run.
Context {S : Type} (p : params) (self : RLSP) (frames : list tensor).
Context (sr_of : S → tensor) (hid_of : S → option tensor).
Context (post : S → nat → tensor → tensor → res S).
Local Abbreviation run' := (run p self frames sr_of hid_of post).

Lemma run_indices st idxs steps st' :
  run' st idxs steps st' → map s_i steps = idxs.
Proof. induction 1; simpl; congruence. Qed.

Lemma run_forward st idxs steps st' :
  run' st idxs steps st' →
  Forall (λ s, lr_group_at self frames (s_i s) = Ok (s_lr s) ∧
               RlspNet_forward p (rlsp self) (s_lr s) (s_sr s) (s_hidden s)
               = Ok (s_out s, s_next s)) steps.
Proof. induction 1; constructor; simpl; auto. Qed.

Context (upd : option tensor → tensor → option tensor).
Hypothesis post_threads : ∀ st i out next st1,
  post st i out next = Ok st1 →
  sr_of st1 = detach out ∧ hid_of st1 = upd (hid_of st) next.

Lemma run_threaded st idxs steps st' extra :
  run' st idxs steps st' →
  extra = [] ∨ (∃ g, extra = [(g, sr_of st', hid_of st')]) →
  threaded p (rlsp self) upd (sr_of st) (hid_of st) (map step_call steps ++ extra).
Proof.
  induction 1 as [st|st i idxs g out next st1 steps st' Hg Hfw Hpost Hrun IH];
    intros Hextra.
  - destruct Hextra as [->|[g ->]]; simpl; auto.
  - specialize (IH Hextra). apply post_threads in Hpost as [Hsr Hhid].
    rewrite Hsr, Hhid in IH. simpl. split_and!; [done..|].
    destruct (map step_call steps ++ extra) as [|c rest] eqn:Hl; [done|].
    by exists out, next.
Qed.

End Run.



Lemma forwards_app tr1 tr2 : forwards (tr1 ++ tr2) = forwards tr1 ++ forwards tr2.
Proof. unfold forwards. apply omap_app. Qed.

Lemma forwards_steps steps : forwards (map step_event steps) = map step_call steps.
Proof. induction steps as [|s steps IH]; [done|]. simpl. by rewrite <- IH. Qed.

(** ** Windows *)

Lemma mapM_py_index_Ok (frames : list tensor) a n : ∀ b g,
  mapM (λ j, py_index frames (a + j)) (seq b n) = Ok g →
  g = take n (drop (a + b) frames) ∧ length g = n.
Proof.
  induction n as [|n IH]; intros b g Hg; simpl in Hg.
  - injection Hg as <-. by rewrite take_0.
  - unfold mbind, res_bind, py_index in Hg.
    destruct (frames !! (a + b)) as [x|] eqn:Hx; [|done].
    destruct (mapM _ (seq (S b) n)) as [k|e] eqn:Hk; [|done].
    injection Hg as <-. apply IH in Hk as [-> Hlen].
    rewrite (drop_S _ _ _ Hx). simpl. split; [|by rewrite Hlen].
    by replace (a + S b) with (S (a + b)) by lia.
Qed.

Lemma mapM_py_index_Err (frames : list tensor) a n : ∀ b e,
  mapM (λ j, py_index frames (a + j)) (seq b n) = Err e →
  e = IndexError ∧ length frames < a + b + n.
Proof.
  induction n as [|n IH]; intros b e He; simpl in He; [done|].
  unfold mbind, res_bind, py_index in He.
  destruct (frames !! (a + b)) as [x|] eqn:Hx.
  - destruct (mapM _ (seq (S b) n)) as [k|e'] eqn:Hk; [done|].
    injection He as <-. apply IH in Hk as [-> Hlen]. split; [done|lia].
  - injection He as <-. apply lookup_ge_None in Hx. split; [done|lia].
Qed.

Lemma mapM_res_ext {A B} (f g : A → res B) (l : list A) :
  (∀ x, x ∈ l → f x = g x) → mapM f l = mapM g l.
Proof.
  induction l as [|x l IH]; intros Hfg; [done|]. simpl.
  rewrite (Hfg x) by (by left).
  rewrite IH; [done|]. intros y Hy. apply Hfg. by right.
Qed.

Lemma py_getitem_nat {A} (l : list A) (n : nat) :
  py_getitem l (Z.of_nat n) = py_index l n.
Proof.
  unfold py_getitem. rewrite decide_False by lia. by rewrite Nat2Z.id.
Qed.

Lemma py_getitem_Err {A} (l : list A) z e :
  py_getitem l z = Err e → e = IndexError.
Proof.
  unfold py_getitem, py_index. intros He. by repeat case_match; simplify_eq.
Qed.

Lemma mapM_res_Ok {A B} (f : A → res B) (l : list A) : ∀ g,
  mapM f l = Ok g → Forall2 (λ x y, f x = Ok y) l g.
Proof.
  induction l as [|x l IH]; intros g Hg; simpl in Hg.
  - injection Hg as <-. constructor.
  - unfold mbind, res_bind in Hg.
    destruct (f x) as [y|] eqn:Hy; [|done].
    destruct (mapM f l) as [k|] eqn:Hk; [|done].
    injection Hg as <-. constructor; [done|by apply IH].
Qed.

Lemma mapM_res_Err {A B} (f : A → res B) (l : list A) e :
  mapM f l = Err e → ∃ x, x ∈ l ∧ f x = Err e.
Proof.
  induction l as [|x l IH]; intros He; simpl in He; [done|].
  unfold mbind, res_bind in He.
  destruct (f x) as [y|e'] eqn:Hy.
  - destruct (mapM f l) as [k|e'] eqn:Hk; [done|].
    injection He as <-. destruct IH as (x' & Hx' & Hfx'); [done|].
    exists x'. split; [by right|done].
  - injection He as <-. exists x. split; [by left|done].
Qed.

Lemma py_getitem_Ok {A} (l : list A) z x : py_getitem l z = Ok x → x ∈ l.
Proof.
  unfold py_getitem, py_index. intros Hx.
  repeat case_match; simplify_eq; by eapply list_elem_of_lookup_2.
Qed.

(** Whatever the index, a window that is built holds [clips] frames of the
    sequence. *)
Lemma lr_group_at_elems self frames i g :
  lr_group_at self frames i = Ok g →
  length g = clips self ∧ ∀ f, f ∈ g → f ∈ frames.
Proof.
  unfold lr_group_at. intros Hg. apply mapM_res_Ok in Hg. split.
  - apply Forall2_length in Hg. unfold py_range in Hg.
    rewrite length_seq in Hg. lia.
  - intros f Hf. apply list_elem_of_lookup_1 in Hf as [k Hk].
    destruct (Forall2_lookup_r _ _ _ _ _ Hg Hk) as (j & _ & Hj).
    by eapply py_getitem_Ok.
Qed.

(** From the index [clips // 2] on no index of a window is negative. *)
Lemma lr_group_at_centered self frames i :
  clips self / 2 ≤ i →
  lr_group_at self frames i
  = mapM (λ j, py_index frames (i - clips self / 2 + j)) (py_range 0 (clips self)).
Proof.
  intros Hi. unfold lr_group_at. apply mapM_res_ext. intros j _.
  rewrite <- py_getitem_nat. f_equal. lia.
Qed.

(** The window of a step is [clips] consecutive frames that start at
    [frames[i - clips // 2]]. *)
Lemma lr_group_at_Ok self frames i g :
  clips self / 2 ≤ i →
  lr_group_at self frames i = Ok g →
  g = take (clips self) (drop (i - clips self / 2) frames) ∧
  length g = clips self.
Proof.
  intros Hi. rewrite lr_group_at_centered by done.
  unfold py_range. rewrite Nat.sub_0_r. intros Hg.
  apply mapM_py_index_Ok in Hg. by rewrite Nat.add_0_r in Hg.
Qed.

(** Inside [range(clips // 2, len(frames) - clips // 2)] the window exists. *)
Lemma lr_group_at_in_range self frames i e :
  lr_group_at self frames i = Err e →
  clips self / 2 ≤ i → i < length frames - clips self / 2 → False.
Proof.
  intros He Hlo Hhi. rewrite lr_group_at_centered in He by done.
  unfold py_range in He. rewrite Nat.sub_0_r in He.
  apply mapM_py_index_Err in He as [_ Hlen].
  pose proof (Nat.div_mod_eq (clips self) 2) as Hdm.
  pose proof (Nat.mod_upper_bound (clips self) 2). lia.
Qed.

(** ** Which exceptions the network can raise *)

Lemma rt_Err {A} (o : option A) e : rt o = Err e → e = RuntimeError.
Proof. destruct o; simpl; congruence. Qed.

Lemma Sequential_forward_Err p ls : ∀ x e,
  Sequential_forward p ls x = Err e → e = RuntimeError.
Proof.
  induction ls as [|l ls IH]; intros x e He; simpl in He; [done|].
  unfold mbind, res_bind in He.
  destruct (rt (conv2d p l x)) as [y|e'] eqn:Hy; [eauto|].
  injection He as <-. by eapply rt_Err.
Qed.

Lemma RLSPCell_forward_Err p c lr fb h e :
  RLSPCell_forward p c lr fb h = Err e → e = RuntimeError.
Proof.
  unfold RLSPCell_forward, mbind, res_bind. intros He.
  repeat case_match; simplify_eq;
    eauto using @rt_Err, Sequential_forward_Err.
Qed.

Lemma RlspNet_forward_Err p net lr sr h e :
  RlspNet_forward p net lr sr h = Err e →
  net_d net / 2 < length lr →
  (h = None → ∀ x, lr !! 0 = Some x → 2 ≤ length (shape x)) →
  e = RuntimeError.
Proof.
  unfold RlspNet_forward, initial_hidden, py_index, py_setitem, mbind, res_bind.
  intros He Hmid Hrank.
  destruct (lr !! (net_d net / 2)) as [mid|] eqn:Hm;
    [|apply lookup_ge_None in Hm; lia].
  destruct lr as [|x lr]; [simpl in Hmid; lia|]. simpl in He.
  destruct h as [h|].
  - repeat case_match; simplify_eq; eauto using @rt_Err, RLSPCell_forward_Err.
  - specialize (Hrank eq_refl x eq_refl).
    repeat case_match; simplify_eq; eauto using @rt_Err, RLSPCell_forward_Err; lia.
Qed.

Lemma py_iadd_Err acc t e : py_iadd acc t = Err e → e = RuntimeError.
Proof.
  unfold py_iadd, fmap, res_fmap. intros He.
  repeat case_match; simplify_eq; eauto using @rt_Err.
Qed.

Lemma py_iadd_Ok acc t acc' : py_iadd acc t = Ok acc' → ∃ x, acc' = PyTensor x.
Proof.
  unfold py_iadd, fmap, res_fmap. intros He.
  repeat case_match; simplify_eq; eauto.
Qed.

Lemma train_post_Err labels st i out next e :
  train_post labels st i out next = Err e → i < length labels →
  e = RuntimeError.
Proof.
  unfold train_post, py_index, mbind, res_bind. intros He Hi.
  destruct (labels !! i) eqn:Hl; [|apply lookup_ge_None in Hl; lia].
  repeat case_match; simplify_eq; eauto using @rt_Err, py_iadd_Err.
Qed.

Lemma eval_post_Err labels st i out next e :
  eval_post labels st i out next = Err e →
  (∀ ls, labels = Some ls → i < length ls) →
  e = RuntimeError.
Proof.
  unfold eval_post, py_index, mbind, res_bind. intros He Hi.
  destruct labels as [ls|]; [|done].
  specialize (Hi ls eq_refl).
  destruct (ls !! i) eqn:Hl; [|apply lookup_ge_None in Hl; lia].
  repeat case_match; simplify_eq; eauto using @rt_Err.
Qed.

(** ** A loop inside its range raises nothing of its own *)

Lemma outcome_Err_runtime {S} p self frames (sr_of : S → tensor) hid_of post
    st idxs e evs :
  outcome p self frames sr_of hid_of post st idxs (Err e) evs →
  net_d (rlsp self) = clips self →
  0 < clips self →
  Forall (λ f, 2 ≤ length (shape f)) frames →
  Forall (λ i, clips self / 2 ≤ i < length frames - clips self / 2) idxs →
  (∀ st i out next e, i ∈ idxs → post st i out next = Err e → e = RuntimeError) →
  e = RuntimeError.
Proof.
  intros Hout Hd Hclips Hrank Hidxs Hpost.
  inversion Hout as [|pre i rest steps st1 e' tail Hrun Hfail]; subst.
  apply Forall_app in Hidxs as [_ Hi]. apply Forall_cons in Hi as [[Hlo Hhi] _].
  destruct Hfail as [[Hg _]|(g & Hg & _ & Hfail)].
  { by destruct (lr_group_at_in_range _ _ _ _ Hg). }
  apply lr_group_at_Ok in Hg as [Hg Hlen]; [|done].
  destruct Hfail as [Hfw|(out & next & _ & Hp)].
  - eapply RlspNet_forward_Err; [done| |].
    + rewrite Hd, Hlen. apply Nat.div_lt; lia.
    + intros _ x Hx. rewrite Forall_forall in Hrank. apply Hrank.
      apply list_elem_of_lookup_2 in Hx. rewrite Hg in Hx.
      by apply subseteq_take, subseteq_drop in Hx.
  - eapply Hpost; [|done]. set_solver.
Qed.

Lemma py_range_bounds a b : Forall (λ i, a ≤ i < b) (py_range a b).
Proof.
  unfold py_range. apply Forall_forall. intros i Hi.
  apply list_elem_of_In, in_seq in Hi. lia.
Qed.

(** ** The two updates of the loop state *)

Lemma train_post_Ok labels st i out next st1 :
  train_post labels st i out next = Ok st1 →
  ∃ lbl l2,
    labels !! i = Some lbl ∧ mse_loss out lbl = Some l2 ∧
    py_iadd (total_loss st) l2 = Ok (total_loss st1) ∧
    py_iadd (image_loss st) (detach l2) = Ok (image_loss st1) ∧
    last_sr st1 = detach out ∧ last_hidden st1 = Some next.
Proof.
  unfold train_post, py_index, mbind, res_bind. intros H.
  destruct (labels !! i) as [lbl|]; [|done].
  destruct (mse_loss out lbl) as [l2|] eqn:Hmse; [|done]. simpl in H.
  destruct (py_iadd (total_loss st) l2) as [tot|] eqn:Htot; [|done].
  destruct (py_iadd (image_loss st) (detach l2)) as [img|] eqn:Himg; [|done].
  injection H as <-. by exists lbl, l2.
Qed.

Lemma eval_post_Ok labels st i out next st1 :
  eval_post labels st i out next = Ok st1 →
  predicts st1 = predicts st ++ [to_numpy (detach out)] ∧
  e_last_sr st1 = detach out ∧
  e_last_hidden st1 = e_last_hidden st ∧
  e_i st1 = i ∧
  match labels with
  | Some ls => ∃ lbl v, ls !! i = Some lbl ∧ psnr out lbl = Some v ∧
                        psnrs st1 = psnrs st ++ [v]
  | None => psnrs st1 = psnrs st
  end.
Proof.
  unfold eval_post, py_index, mbind, res_bind. intros H.
  destruct labels as [ls|].
  - destruct (ls !! i) as [lbl|]; [|done].
    destruct (psnr out lbl) as [v|] eqn:Hv; [|done]. simpl in H.
    injection H as <-. simpl. split_and!; [done..|]. by exists lbl, v.
  - by injection H as <-.
Qed.

Local Abbreviation py_fold :=
  (foldl (λ (acc : res pynum) (t : tensor), a ← acc; py_iadd a t)).

Lemma train_run_losses p self frames labels st idxs steps st' :
  run p self frames last_sr last_hidden (train_post labels) st idxs steps st' →
  ∃ losses,
    Forall2 (λ s l, ∃ lbl, labels !! s_i s = Some lbl ∧
                           mse_loss (s_out s) lbl = Some l) steps losses ∧
    py_fold (Ok (total_loss st)) losses = Ok (total_loss st') ∧
    py_fold (Ok (image_loss st)) (detach <$> losses) = Ok (image_loss st').
Proof.
  induction 1 as [st|st i idxs g out next st1 steps st' Hg Hfw Hpost Hrun IH].
  - exists []. by split_and!.
  - destruct IH as (losses & Hall & Htot & Himg).
    apply train_post_Ok in Hpost as (lbl & l2 & Hl & Hmse & Ht & Hi & _).
    exists (l2 :: losses). split_and!.
    + constructor; [|done]. by exists lbl.
    + simpl. by rewrite Ht.
    + simpl. by rewrite Hi.
Qed.

Lemma train_run_tensors p self frames labels st idxs steps st' :
  run p self frames last_sr last_hidden (train_post labels) st idxs steps st' →
  idxs ≠ [] →
  ∃ total image, total_loss st' = PyTensor total ∧ image_loss st' = PyTensor image.
Proof.
  induction 1 as [st|st i idxs g out next st1 steps st' Hg Hfw Hpost Hrun IH];
    [done|]. intros _.
  destruct idxs as [|j idxs]; [|by apply IH].
  inversion Hrun; subst.
  apply train_post_Ok in Hpost as (lbl & l2 & _ & _ & Ht & Hi & _).
  apply py_iadd_Ok in Ht as [total ->]. apply py_iadd_Ok in Hi as [image ->].
  by exists total, image.
Qed.

Lemma eval_run_facts p self frames labels st idxs steps st' :
  run p self frames e_last_sr e_last_hidden (eval_post labels) st idxs steps st' →
  predicts st' = predicts st ++ map (λ s, to_numpy (detach (s_out s))) steps ∧
  e_i st' = default (e_i st) (last idxs) ∧
  ∃ ps, psnrs st' = psnrs st ++ ps ∧
        match labels with
        | Some ls => Forall2 (λ s v, ∃ lbl, ls !! s_i s = Some lbl ∧
                                            psnr (s_out s) lbl = Some v) steps ps
        | None => ps = []
        end.
Proof.
  induction 1 as [st|st i idxs g out next st1 steps st' Hg Hfw Hpost Hrun IH].
  - split_and!; [by rewrite app_nil_r|done|]. exists [].
    split; [by rewrite app_nil_r|]. by destruct labels.
  - destruct IH as (Hpred & Hi & ps & Hps & Hall).
    apply eval_post_Ok in Hpost as (Hp1 & _ & _ & Hi1 & Hl).
    split_and!.
    + rewrite Hpred, Hp1. simpl. by rewrite <- app_assoc.
    + rewrite Hi, Hi1. destruct idxs as [|j idxs]; [reflexivity|].
      rewrite last_cons_cons.
      destruct (last (j :: idxs)) eqn:Hlast; [reflexivity|].
      by apply last_None in Hlast.
    + destruct labels as [ls|].
      * destruct Hl as (lbl & v & Hlbl & Hv & Hps1). exists (v :: ps). split.
        { rewrite Hps, Hps1. by rewrite <- app_assoc. }
        constructor; [|done]. by exists lbl.
      * exists []. split; [|done]. rewrite Hps, Hl. by subst ps.
Qed.

(** ** The cases of a call *)

Lemma train_cases self frames labels learning_rate w r w' :
  train self frames labels learning_rate w = (r, w') →
  ∃ p' new,
    w' = mkWorld p' (set_lr learning_rate (w_param_groups w)) (w_writer w)
           (w_trace w ++ new) ∧
    ((frames = [] ∧ r = Err IndexError ∧ new = [] ∧ p' = w_params w) ∨
     (∃ first, frames !! 0 = Some first ∧ upsample first (scale self) = None ∧
               r = Err RuntimeError ∧ new = [] ∧ p' = w_params w) ∨
     (∃ first up rl evs,
        frames !! 0 = Some first ∧ upsample first (scale self) = Some up ∧
        outcome (w_params w) self frames last_sr last_hidden (train_post labels)
          (mkTrain (PyInt 0) (PyInt 0) None (zeros_like up))
          (py_range (clips self / 2) (length frames - clips self / 2)) rl evs ∧
        train_after_loop frames (set_lr learning_rate (w_param_groups w))
          (w_params w) rl evs r new p')).
Proof.
  destruct w as [p groups writer tr]. simpl.
  unfold train. rewrite bind_M_eq.
  set (w0 := mkWorld p (set_lr learning_rate groups) writer tr).
  assert (Hw0 : (if py_truthy learning_rate
                 then w ← get_world;
                      set_param_groups
                        (map (λ g, match learning_rate with
                                   | Some q => <["lr" := q]> g
                                   | None => g
                                   end) (w_param_groups w))
                 else mret tt) (mkWorld p groups writer tr) = (Ok tt, w0)).
  { unfold w0, set_lr. destruct learning_rate as [q|]; [|done].
    destruct (py_truthy (Some q)); done. }
  rewrite Hw0. clear Hw0. rewrite bind_M_eq, lift_eq.
  unfold py_index. destruct (frames !! 0) as [first|] eqn:Hfirst.
  2:{ intros [= <- <-]. exists p, []. split; [by rewrite app_nil_r|].
      left. destruct frames; done. }
  rewrite bind_M_eq, lift_eq.
  destruct (upsample first (scale self)) as [up|] eqn:Hup; simpl.
  2:{ intros [= <- <-]. exists p, []. split; [by rewrite app_nil_r|].
      right; left. by exists first. }
  rewrite bind_M_eq.
  destruct (for_each _ _ _ w0) as [rl w1] eqn:Hloop.
  apply (for_each_outcome self frames last_sr last_hidden (train_post labels))
    in Hloop as (evs & -> & Hout); [|apply train_body_shape].
  intros Hr.
  assert (∃ p' new, w' = mkWorld p' (set_lr learning_rate groups) writer (tr ++ new) ∧
            train_after_loop frames (set_lr learning_rate groups) p rl evs r new p')
    as (p' & new & -> & Hafter).
  { unfold train_after_loop.
    cbv beta iota zeta delta
      [mbind M_bind mret M_ret lift emit get_world set_params log
       adam_zero_grad tensor_backward adam_step_call py_tensor_method
       w_params w_param_groups w_writer w_trace w0] in Hr.
    destruct rl as [st|e].
    2:{ injection Hr as <- <-. by exists p, evs. }
    destruct (total_loss st) as [z|total].
    { injection Hr as <- <-. eexists _, _. split; [|done].
      by rewrite <- app_assoc. }
    destruct (backward total (zero_grad p)) as [p1|]; cbv [rt] in Hr.
    2:{ injection Hr as <- <-. eexists _, _. split; [|done].
        by rewrite <- !app_assoc. }
    destruct (image_loss st) as [z|image].
    { injection Hr as <- <-. eexists _, _. split; [|done].
      by rewrite <- !app_assoc. }
    injection Hr as <- <-. eexists _, _. split; [|done].
    by rewrite <- !app_assoc. }
  exists p', new. split; [done|]. right; right. by exists first, up, rl, evs.
Qed.

Lemma eval_cases self frames labels kwargs w r w' :
  eval self frames labels kwargs w = (r, w') →
  ∃ new,
    w' = mkWorld (w_params w) (w_param_groups w) (w_writer w) (w_trace w ++ new) ∧
    ((frames = [] ∧ r = Err IndexError ∧ new = []) ∨
     (∃ first, frames !! 0 = Some first ∧ upsample first (scale self) = None ∧
               r = Err RuntimeError ∧ new = []) ∨
     (∃ first up rl evs,
        frames !! 0 = Some first ∧ upsample first (scale self) = Some up ∧
        outcome (w_params w) self frames e_last_sr e_last_hidden (eval_post labels)
          (mkEval [] [] (zeros_like up) None 0)
          (py_range (clips self / 2) (length frames - clips self / 2)) rl evs ∧
        eval_after_loop labels kwargs (w_writer w) rl evs r new)).
Proof.
  destruct w as [p groups writer tr]. cbv [w_params w_param_groups w_writer w_trace].
  unfold eval. rewrite bind_M_eq, lift_eq.
  unfold py_index at 1. destruct (frames !! 0) as [first|] eqn:Hfirst.
  2:{ intros [= <- <-]. exists []. split; [by rewrite app_nil_r|].
      left. destruct frames; done. }
  rewrite bind_M_eq, lift_eq.
  destruct (upsample first (scale self)) as [up|] eqn:Hup; cbv [rt].
  2:{ intros [= <- <-]. exists []. split; [by rewrite app_nil_r|].
      right; left. by exists first. }
  rewrite bind_M_eq.
  destruct (for_each _ _ _ _) as [rl w1] eqn:Hloop.
  apply (for_each_outcome self frames e_last_sr e_last_hidden (eval_post labels))
    in Hloop as (evs & -> & Hout); [|apply eval_body_shape].
  cbv [w_params w_param_groups w_writer w_trace] in Hout |- *.
  intros Hr.
  assert (∃ new, w' = mkWorld p groups writer (tr ++ new) ∧
            eval_after_loop labels kwargs writer rl evs r new)
    as (new & -> & Hafter).
  { unfold eval_after_loop.
    cbv beta iota zeta delta
      [mbind M_bind mret M_ret lift emit get_world log
       w_params w_param_groups w_writer w_trace] in Hr.
    destruct rl as [st|e].
    2:{ injection Hr as <- <-. by exists evs. }
    destruct writer.
    2:{ injection Hr as <- <-. by exists evs. }
    destruct (kwargs !! "epoch") as [step|].
    2:{ injection Hr as <- <-. by exists evs. }
    destruct labels as [ls|].
    2:{ injection Hr as <- <-. eexists. split; [|done]. by rewrite <- app_assoc. }
    unfold py_index in Hr. destruct (ls !! e_i st) as [label|].
    2:{ injection Hr as <- <-. eexists. split; [|done]. by rewrite <- app_assoc. }
    injection Hr as <- <-. eexists. split; [|done]. by rewrite <- !app_assoc. }
  exists new. split; [done|]. right; right. by exists first, up, rl, evs.
Qed.

End Facts.

(** ** What the forward passes of a call were fed *)

Section Calls.
Context `{T : Torch}.

Lemma outcome_calls {S} p self frames (sr_of : S → tensor) hid_of post upd
    st idxs rl evs :
  (∀ st i out next st1, post st i out next = Ok st1 →
     sr_of st1 = detach out ∧ hid_of st1 = upd (hid_of st) next) →
  outcome p self frames sr_of hid_of post st idxs rl evs →
  threaded p (rlsp self) upd (sr_of st) (hid_of st) (forwards evs) ∧
  ∀ k g sr h, forwards evs !! k = Some (g, sr, h) →
    ∃ i, idxs !! k = Some i ∧ lr_group_at self frames i = Ok g.
Proof.
  intros Hpost Hout.
  assert (Hsteps : ∀ st idxs steps st' k g sr h,
            run p self frames sr_of hid_of post st idxs steps st' →
            map step_call steps !! k = Some (g, sr, h) →
            ∃ i, idxs !! k = Some i ∧ lr_group_at self frames i = Ok g).
  { intros st0 idxs0 steps st' k g sr h Hrun Hk.
    rewrite list_lookup_fmap in Hk.
    destruct (steps !! k) as [s|] eqn:Hs; [|done]. injection Hk as <- <- <-.
    exists (s_i s). split.
    - rewrite <- (run_indices _ _ _ _ _ _ _ _ _ _ Hrun), list_lookup_fmap.
      by rewrite Hs.
    - pose proof (run_forward _ _ _ _ _ _ _ _ _ _ Hrun) as Hfw.
      rewrite Forall_forall in Hfw.
      by apply Hfw, list_elem_of_lookup_2 with k. }
  inversion Hout as [idxs' steps st' Hrun|pre i rest steps st1 e tail Hrun Hfail];
    subst.
  - rewrite forwards_steps. split; [|by eauto].
    rewrite <- (app_nil_r (map step_call steps)).
    eapply run_threaded; eauto.
  - rewrite forwards_app, forwards_steps.
    assert (Hlen : length (map step_call steps) = length pre).
    { rewrite length_map, <- (run_indices _ _ _ _ _ _ _ _ _ _ Hrun).
      by rewrite length_map. }
    destruct Hfail as [[_ ->]|(g0 & Hg0 & -> & _)]; simpl.
    + split; [eapply run_threaded; eauto|].
      intros k g sr h Hk. rewrite app_nil_r in Hk.
      destruct (Hsteps _ _ _ _ _ _ _ _ Hrun Hk) as (j & Hj & Hg).
      exists j. split; [|done]. by apply lookup_app_l_Some.
    + split; [eapply run_threaded; eauto|].
      intros k g sr h Hk. apply lookup_app_Some in Hk as [Hk|[Hge Hk]].
      * destruct (Hsteps _ _ _ _ _ _ _ _ Hrun Hk) as (j & Hj & Hg).
        exists j. split; [|done]. by apply lookup_app_l_Some.
      * rewrite Hlen in Hk, Hge.
        destruct (k - length pre) as [|n] eqn:Hkn; [|done].
        injection Hk as <- <- <-. exists i. split; [|done].
        assert (k = length pre) as -> by lia.
        by rewrite list_lookup_middle.
Qed.

Lemma train_after_loop_forwards frames groups p rl evs r new p' :
  train_after_loop frames groups p rl evs r new p' →
  forwards new = forwards evs.
Proof.
  unfold train_after_loop. intros H.
  repeat case_match; destruct_and!; subst;
    rewrite ?forwards_app; simpl; by rewrite ?app_nil_r.
Qed.

Lemma eval_after_loop_forwards labels kwargs writer rl evs r new :
  eval_after_loop labels kwargs writer rl evs r new →
  forwards new = forwards evs.
Proof.
  unfold eval_after_loop. intros H.
  repeat case_match; destruct_and!; subst;
    rewrite ?forwards_app; simpl; by rewrite ?app_nil_r.
Qed.

(** The forward passes of a training call: the first one is fed the zero
    frame and no hidden state, each later one what the one before it
    returned; the [k]-th one has the window of the [k]-th index. *)
Lemma train_calls self frames labels learning_rate w :
  let calls := forwards (new_events w (train self frames labels learning_rate w).2) in
  calls = [] ∨
  ∃ first up,
    frames !! 0 = Some first ∧ upsample first (scale self) = Some up ∧
    threaded (w_params w) (rlsp self) (λ _ next, Some next)
      (zeros_like up) None calls ∧
    ∀ k g sr h, calls !! k = Some (g, sr, h) →
      ∃ i, py_range (clips self / 2) (length frames - clips self / 2) !! k = Some i ∧
           lr_group_at self frames i = Ok g.
Proof.
  intros calls. subst calls.
  destruct (train self frames labels learning_rate w) as [r w'] eqn:Htrain.
  apply train_cases in Htrain
    as (p' & new & -> & [(_ & _ & -> & _)|[(first & _ & _ & _ & -> & _)|Hloop]]);
    unfold new_events; simpl; rewrite drop_app_length; [by left..|].
  destruct Hloop as (first & up & rl & evs & Hfirst & Hup & Hout & Hafter).
  right. exists first, up. split_and!; [done..| |];
    rewrite (train_after_loop_forwards _ _ _ _ _ _ _ _ Hafter);
    eapply (outcome_calls _ _ _ last_sr last_hidden _ (λ _ next, Some next)) in Hout
      as [Hth Hwin]; try done.
  all: intros st i out next st1 Hpost;
    by apply train_post_Ok in Hpost as (_ & _ & _ & _ & _ & _ & -> & ->).
Qed.

(** The same for an evaluation call, but for the hidden state: the one of
    the loop state is passed on as it is. *)
Lemma eval_calls self frames labels kwargs w :
  let calls := forwards (new_events w (eval self frames labels kwargs w).2) in
  calls = [] ∨
  ∃ first up,
    frames !! 0 = Some first ∧ upsample first (scale self) = Some up ∧
    threaded (w_params w) (rlsp self) (λ h _, h) (zeros_like up) None calls ∧
    ∀ k g sr h, calls !! k = Some (g, sr, h) →
      ∃ i, py_range (clips self / 2) (length frames - clips self / 2) !! k = Some i ∧
           lr_group_at self frames i = Ok g.
Proof.
  intros calls. subst calls.
  destruct (eval self frames labels kwargs w) as [r w'] eqn:Heval.
  apply eval_cases in Heval
    as (new & -> & [(_ & _ & ->)|[(first & _ & _ & _ & ->)|Hloop]]);
    unfold new_events; simpl; rewrite drop_app_length; [by left..|].
  destruct Hloop as (first & up & rl & evs & Hfirst & Hup & Hout & Hafter).
  right. exists first, up. split_and!; [done..| |];
    rewrite (eval_after_loop_forwards _ _ _ _ _ _ _ Hafter);
    eapply (outcome_calls _ _ _ e_last_sr e_last_hidden _ (λ h _, h)) in Hout
      as [Hth Hwin]; try done.
  all: intros st i out next st1 Hpost;
    by apply eval_post_Ok in Hpost as (_ & -> & -> & _).
Qed.

Lemma outcome_only_forwards {S} p self frames (sr_of : S → tensor) hid_of post
    st idxs rl evs :
  outcome p self frames sr_of hid_of post st idxs rl evs →
  Forall (λ e, ∃ g sr h, e = EvForward g sr h) evs.
Proof.
  assert (Hsteps : ∀ steps, Forall (λ e, ∃ g sr h, e = EvForward g sr h)
                              (map step_event steps)).
  { intros steps. apply Forall_forall. intros e He.
    apply list_elem_of_fmap in He as (s & -> & _).
    by exists (s_lr s), (s_sr s), (s_hidden s). }
  intros Hout.
  inversion Hout as [|pre i rest steps st1 e tail Hrun Hfail]; subst; [done|].
  apply Forall_app. split; [done|].
  destruct Hfail as [[_ ->]|(g & _ & -> & _)]; [done|].
  repeat constructor. by exists g, (sr_of st1), (hid_of st1).
Qed.

Lemma outcome_nil {S} p self frames (sr_of : S → tensor) hid_of post st rl evs :
  outcome p self frames sr_of hid_of post st [] rl evs → rl = Ok st ∧ evs = [].
Proof.
  intros Hout. inversion Hout as [idxs steps st' Hrun|pre i rest ? ? ? ? ? ? Hnil];
    subst.
  - by inversion Hrun.
  - by destruct pre.
Qed.

Lemma py_range_nil a b : b ≤ a → py_range a b = [].
Proof. intros Hab. unfold py_range. by replace (b - a) with 0 by lia. Qed.

(** ** Calls that return *)

(** A training call that returns completed its loop, on at least one
    index, and then went through [zero_grad], [backward] and [step]. *)
Lemma train_Ok_run self frames labels learning_rate w d w' :
  train self frames labels learning_rate w = (Ok d, w') →
  ∃ first up steps st total image,
    frames !! 0 = Some first ∧ upsample first (scale self) = Some up ∧
    run (w_params w) self frames last_sr last_hidden (train_post labels)
      (mkTrain (PyInt 0) (PyInt 0) None (zeros_like up))
      (py_range (clips self / 2) (length frames - clips self / 2)) steps st ∧
    total_loss st = PyTensor total ∧ image_loss st = PyTensor image ∧
    d = <["image_loss" := np_div (to_numpy image) (length frames)]>
          (<["total_loss" := np_div (to_numpy (detach total)) (length frames)]> ∅) ∧
    new_events w w' =
      map step_event steps
      ++ [EvZeroGrad; EvBackward total; EvStep (w_param_groups w')] ∧
    2 * (clips self / 2) < length frames.
Proof.
  intros Htrain.
  apply train_cases in Htrain
    as (p' & new & -> & [(_ & ? & _)|[(first & _ & _ & ? & _)|Hloop]]); [done..|].
  destruct Hloop as (first & up & rl & evs & Hfirst & Hup & Hout & Hafter).
  unfold train_after_loop in Hafter.
  destruct rl as [st|e]; [|by destruct Hafter].
  destruct (total_loss st) as [z|total] eqn:Ht; [by destruct Hafter|].
  destruct (backward total _) as [p1|]; [|by destruct Hafter].
  destruct Hafter as (-> & -> & Hr).
  destruct (image_loss st) as [z|image] eqn:Hi; [done|]. injection Hr as ->.
  assert (2 * (clips self / 2) < length frames) as Hn.
  { destruct (decide (2 * (clips self / 2) < length frames)) as [|Hshort]; [done|].
    rewrite py_range_nil in Hout by lia.
    apply outcome_nil in Hout as [[= ->] _]. done. }
  inversion Hout as [idxs steps st' Hrun|]; subst.
  exists first, up, steps, st, total, image. split_and!; [done..| |done].
  unfold new_events; simpl. by rewrite drop_app_length.
Qed.

(** An evaluation call that returns completed its loop. *)
Lemma eval_Ok_run self frames labels kwargs w preds metrics w' :
  eval self frames labels kwargs w = (Ok (preds, metrics), w') →
  ∃ first up steps st,
    frames !! 0 = Some first ∧ upsample first (scale self) = Some up ∧
    run (w_params w) self frames e_last_sr e_last_hidden (eval_post labels)
      (mkEval [] [] (zeros_like up) None 0)
      (py_range (clips self / 2) (length frames - clips self / 2)) steps st ∧
    preds = predicts st ∧
    metrics = <["psnr" := np_mean (psnrs st)]> ∅ ∧
    forwards (new_events w w') = map step_call steps.
Proof.
  intros Heval.
  apply eval_cases in Heval
    as (new & -> & [(_ & ? & _)|[(first & _ & _ & ? & _)|Hloop]]); [done..|].
  destruct Hloop as (first & up & rl & evs & Hfirst & Hup & Hout & Hafter).
  pose proof (eval_after_loop_forwards _ _ _ _ _ _ _ Hafter) as Hfw.
  unfold eval_after_loop in Hafter.
  destruct rl as [st|e]; [|by destruct Hafter].
  inversion Hout as [idxs steps st' Hrun|]; subst.
  assert (preds = predicts st ∧ metrics = <["psnr" := np_mean (psnrs st)]> ∅)
    as [-> ->].
  { repeat case_match; destruct Hafter as [Hr _]; by simplify_eq. }
  exists first, up, steps, st. split_and!; [done..|].
  unfold new_events. cbn [w_trace]. rewrite drop_app_length.
  by rewrite Hfw, forwards_steps.
Qed.

(** A call on fewer frames than [clips] makes no forward pass. *)
Lemma short_sequence_range (c n : nat) : n < c → n - c / 2 ≤ c / 2.
Proof.
  intros Hn. pose proof (Nat.div_mod_eq c 2) as Hdm.
  pose proof (Nat.mod_upper_bound c 2). lia.
Qed.

Lemma eval_short_no_forward self frames labels kwargs w :
  length frames < clips self →
  forwards (new_events w (eval self frames labels kwargs w).2) = [].
Proof.
  intros Hn.
  destruct (eval self frames labels kwargs w) as [r w'] eqn:Heval.
  apply eval_cases in Heval
    as (new & -> & [(_ & _ & ->)|[(first & _ & _ & _ & ->)|Hloop]]);
    unfold new_events; simpl; rewrite drop_app_length; [done..|].
  destruct Hloop as (first & up & rl & evs & _ & _ & Hout & Hafter).
  rewrite (eval_after_loop_forwards _ _ _ _ _ _ _ Hafter).
  rewrite py_range_nil in Hout by (by apply short_sequence_range).
  by apply outcome_nil in Hout as [_ ->].
Qed.

(** What [RlspNet.forward] computed when it returns. *)
Lemma RlspNet_forward_Ok p net lr sr h out next :
  RlspNet_forward p net lr sr h = Ok (out, next) →
  ∃ hid mid center shuffled lrc inputs x res up,
    match h with
    | Some h' => hid = h'
    | None => initial_hidden net lr = Ok hid
    end ∧
    lr !! (net_d net / 2) = Some mid ∧
    interpolate mid (net_s net) = Some center ∧
    space_to_depth (shuffle net) sr = Some shuffled ∧
    cat lr = Some lrc ∧
    cat [lrc; hid; detach shuffled] = Some inputs ∧
    Sequential_forward p (cell (rlspcell net)) inputs = Ok x ∧
    conv2d p (hidden (rlspcell net)) x = Some next ∧
    conv2d p (exit (rlspcell net)) x = Some res ∧
    pixel_shuffle res (net_s net) = Some up ∧
    add center up = Some out.
Proof.
  unfold RlspNet_forward, RLSPCell_forward, py_index, mbind, res_bind.
  intros H.
  destruct (match h with Some h' => Ok h' | None => initial_hidden net lr end)
    as [hid|] eqn:Hhid; [|done].
  destruct (lr !! (net_d net / 2)) as [mid|]; [|done].
  destruct (interpolate mid (net_s net)) as [center|] eqn:Hc;
    cbn [rt] in H; [|done].
  destruct (space_to_depth (shuffle net) sr) as [shuffled|] eqn:Hs;
    cbn [rt] in H; [|done].
  destruct (cat lr) as [lrc|] eqn:Hlrc; cbn [rt] in H; [|done].
  destruct (cat [lrc; hid; detach shuffled]) as [inputs|] eqn:Hin;
    cbn [rt] in H; [|done].
  destruct (Sequential_forward p _ inputs) as [x|] eqn:Hx; [|done].
  destruct (conv2d p (hidden _) x) as [nx|] eqn:Hn; cbn [rt] in H; [|done].
  destruct (conv2d p (exit _) x) as [res|] eqn:Hr; cbn [rt] in H; [|done].
  destruct (pixel_shuffle res (net_s net)) as [up|] eqn:Hu; cbn [rt] in H; [|done].
  destruct (add center up) as [o|] eqn:Ho; cbn [rt] in H; [|done].
  injection H as <- <-.
  exists hid, mid, center, shuffled, lrc, inputs, x, res, up.
  split_and!; try done. destruct h; by simplify_eq.
Qed.

End Calls.

(** * The claims *)

Section Claims.
Context `{T : Torch} (scale0 channel0 clips0 layers0 filters0 : nat).
Local Abbreviation self := (RLSP_init scale0 channel0 clips0 layers0 filters0).

Lemma train_loop_Err_runtime frames labels st rl_e evs p :
  outcome p self frames last_sr last_hidden (train_post labels) st
    (py_range (clips self / 2) (length frames - clips self / 2)) (Err rl_e) evs →
  0 < clips self →
  length frames - clips self / 2 ≤ length labels →
  Forall (λ f, 2 ≤ length (shape f)) frames →
  rl_e = RuntimeError.
Proof.
  intros Hout Hclips Hlabels Hrank.
  eapply outcome_Err_runtime; [done|done|done|done|apply py_range_bounds|].
  intros st0 i out next e Hi He. eapply train_post_Err; [done|].
  pose proof (py_range_bounds (clips self / 2) (length frames - clips self / 2)) as Hb.
  rewrite Forall_forall in Hb. apply Hb in Hi. lia.
Qed.

(** A training call that processes at least one frame, has a label for
    every index it processes and in which the runtime raises nothing
    returns, with the final loop state [st] of a completed loop. *)
Lemma train_returns frames labels learning_rate w :
  0 < clips self →
  2 * (clips self / 2) < length frames →
  length frames - clips self / 2 ≤ length labels →
  Forall (λ f, 2 ≤ length (shape f)) frames →
  raises_runtime_error (train self frames labels learning_rate w).1 = false →
  ∃ first up steps st total image w',
    frames !! 0 = Some first ∧ upsample first (scale self) = Some up ∧
    run (w_params w) self frames last_sr last_hidden (train_post labels)
      (mkTrain (PyInt 0) (PyInt 0) None (zeros_like up))
      (py_range (clips self / 2) (length frames - clips self / 2)) steps st ∧
    total_loss st = PyTensor total ∧ image_loss st = PyTensor image ∧
    train self frames labels learning_rate w
      = (Ok (<["image_loss" := np_div (to_numpy image) (length frames)]>
             (<["total_loss" := np_div (to_numpy (detach total)) (length frames)]>
                ∅)), w') ∧
    new_events w w' =
      map step_event steps
      ++ [EvZeroGrad; EvBackward total; EvStep (w_param_groups w')].
Proof.
  intros Hclips Hn Hlabels Hrank Hrt.
  destruct (train self frames labels learning_rate w) as [r w'] eqn:Htrain.
  simpl in Hrt.
  apply train_cases in Htrain
    as (p' & new & -> & [(-> & _)|[(first & _ & _ & -> & _)|Hloop]]);
    [cbn [length] in Hn; lia|done|].
  destruct Hloop as (first & up & rl & evs & Hfirst & Hup & Hout & Hafter).
  destruct rl as [st|e].
  2:{ destruct Hafter as (-> & _).
      apply train_loop_Err_runtime in Hout as ->; done. }
  inversion Hout as [idxs steps st' Hrun|]; subst.
  destruct (train_run_tensors _ _ _ _ _ _ _ _ Hrun)
    as (total & image & Ht & Hi).
  { unfold py_range. intros Hnil. apply (f_equal length) in Hnil.
    rewrite length_seq in Hnil. cbn [length] in Hnil. lia. }
  unfold train_after_loop in Hafter. rewrite Ht, Hi in Hafter.
  destruct (backward total _) as [p1|]; [|by destruct Hafter as (-> & _)].
  destruct Hafter as (-> & -> & ->).
  exists first, up, steps, st, total, image. eexists.
  split_and!; [done..|].
  unfold new_events; simpl. by rewrite drop_app_length.
Qed.

(** A call of [eval] that the runtime does not interrupt returns, with the
    final loop state [st] of a completed loop: the labels, where given, have
    to reach to the last processed index, and with a summary writer
    [kwargs] has to hold ['epoch'] and there has to be a label. *)
Lemma eval_returns frames labels kwargs w :
  0 < clips self →
  0 < length frames →
  (∀ ls, labels = Some ls → length frames - clips self / 2 ≤ length ls) →
  Forall (λ f, 2 ≤ length (shape f)) frames →
  (w_writer w = true →
   is_Some (kwargs !! "epoch") ∧ ∃ ls, labels = Some ls ∧ 0 < length ls) →
  raises_runtime_error (eval self frames labels kwargs w).1 = false →
  ∃ first up steps st w',
    frames !! 0 = Some first ∧ upsample first (scale self) = Some up ∧
    run (w_params w) self frames e_last_sr e_last_hidden (eval_post labels)
      (mkEval [] [] (zeros_like up) None 0)
      (py_range (clips self / 2) (length frames - clips self / 2)) steps st ∧
    eval self frames labels kwargs w
      = (Ok (predicts st, <["psnr" := np_mean (psnrs st)]> ∅), w') ∧
    forwards (new_events w w') = map step_call steps.
Proof.
  intros Hclips Hn Hlabels Hrank Hwriter Hrt.
  destruct (eval self frames labels kwargs w) as [r w'] eqn:Heval.
  simpl in Hrt.
  apply eval_cases in Heval
    as (new & -> & [(-> & _)|[(first & _ & _ & -> & _)|Hloop]]);
    [cbn [length] in Hn; lia|done|].
  destruct Hloop as (first & up & rl & evs & Hfirst & Hup & Hout & Hafter).
  pose proof (py_range_bounds (clips self / 2) (length frames - clips self / 2))
    as Hb.
  destruct rl as [st|e].
  2:{ destruct Hafter as (-> & _).
      eapply outcome_Err_runtime in Hout as ->; [done..|].
      intros st0 i out next e' Hi He. eapply eval_post_Err; [done|].
      intros ls ->. specialize (Hlabels ls eq_refl).
      rewrite Forall_forall in Hb. apply Hb in Hi. lia. }
  inversion Hout as [idxs steps st' Hrun|]; subst.
  exists first, up, steps, st.
  assert (∃ rest, r = Ok (predicts st, <["psnr" := np_mean (psnrs st)]> ∅) ∧
                  new = map step_event steps ++ rest ∧ forwards rest = [])
    as (rest & -> & -> & Hrest).
  { unfold eval_after_loop in Hafter. destruct (w_writer w).
    2:{ destruct Hafter as [-> ->]. exists []. by rewrite app_nil_r. }
    destruct Hwriter as [[step Hstep] (ls & -> & Hls)]; [done|].
    rewrite Hstep in Hafter.
    destruct (eval_run_facts _ _ _ _ _ _ _ _ Hrun) as (_ & Hi & _).
    destruct (ls !! e_i st) as [label|] eqn:Hlabel.
    { destruct Hafter as [-> ->]. by eexists. }
    exfalso. apply lookup_ge_None in Hlabel.
    specialize (Hlabels ls eq_refl). simpl in Hi.
    destruct (last (py_range _ _)) as [j|] eqn:Hlast.
    - apply last_Some_elem_of in Hlast. rewrite Forall_forall in Hb.
      apply Hb in Hlast. simpl in Hi. lia.
    - simpl in Hi. lia. }
  eexists. split_and!; [done..|].
  unfold new_events; simpl. rewrite drop_app_length, forwards_app, Hrest.
  by rewrite app_nil_r, forwards_steps.
Qed.

(** C2, as amended.  A training call that returns had
    [n > 2 * (clips // 2)] frames (which is [n >= clips] when [clips] is
    odd); it ran one forward pass per index of
    [range(clips // 2, n - clips // 2)], took the MSE of each prediction
    against the label of that index, summed these losses, called [backward]
    once, on that sum, and stepped the optimizer once; the returned
    ['image_loss'] is the sum of the (detached) losses divided by [n], the
    number of input frames.  A training call returns when [clips >= 1],
    [n > 2 * (clips // 2)], there is a label for every processed index, the
    frames have at least two dimensions and the tensor runtime raises
    nothing. *)
Theorem train_loss_and_single_step frames labels learning_rate w :
  (∀ d w',
     train self frames labels learning_rate w = (Ok d, w') →
     ∃ steps losses total image,
       2 * (clips self / 2) < length frames ∧
       map s_i steps = py_range (clips self / 2) (length frames - clips self / 2) ∧
       Forall (λ s, lr_group_at self frames (s_i s) = Ok (s_lr s) ∧
                    RlspNet_forward (w_params w) (rlsp self) (s_lr s) (s_sr s)
                      (s_hidden s) = Ok (s_out s, s_next s)) steps ∧
       Forall2 (λ s l, ∃ lbl, labels !! s_i s = Some lbl ∧
                              mse_loss (s_out s) lbl = Some l) steps losses ∧
       py_sum losses = Ok (PyTensor total) ∧
       py_sum (detach <$> losses) = Ok (PyTensor image) ∧
       new_events w w' =
         map step_event steps
         ++ [EvZeroGrad; EvBackward total; EvStep (w_param_groups w')] ∧
       d !! "total_loss" = Some (np_div (to_numpy (detach total)) (length frames)) ∧
       d !! "image_loss" = Some (np_div (to_numpy image) (length frames))) ∧
  (0 < clips self →
   2 * (clips self / 2) < length frames →
   length frames - clips self / 2 ≤ length labels →
   Forall (λ f, 2 ≤ length (shape f)) frames →
   raises_runtime_error (train self frames labels learning_rate w).1 = false →
   ∃ d w', train self frames labels learning_rate w = (Ok d, w')).
Proof.
  split.
  - intros d w' Htrain.
    apply train_Ok_run in Htrain
      as (first & up & steps & st & total & image & _ & _ & Hrun & Ht & Hi
          & -> & Hnew & Hn).
    destruct (train_run_losses _ _ _ _ _ _ _ _ Hrun)
      as (losses & Hlosses & Htot & Himg).
    exists steps, losses, total, image.
    split_and!; [done| | |done| | |done| |].
    + by eapply run_indices.
    + by eapply run_forward.
    + unfold py_sum. by rewrite <- Ht.
    + unfold py_sum. by rewrite <- Hi.
    + rewrite lookup_insert_ne by done. by rewrite lookup_insert_eq.
    + by rewrite lookup_insert_eq.
  - intros Hclips Hn Hlabels Hrank Hrt.
    destruct (train_returns frames labels learning_rate w)
      as (first & up & steps & st & total & image & w' & _ & _ & _ & _ & _
          & Htrain & _); [done..|].
    by eexists _, w'.
Qed.

(** C3, as amended.  An evaluation call with labels that returns gives the
    predictions of its forward passes, one per index of
    [range(clips // 2, n - clips // 2)] in order, and a metrics dictionary
    whose ['psnr'] entry is [np.mean] of the list that holds, for each of
    these indices in order, the PSNR of the prediction of that step against
    the label of that index.  Such a call returns when [clips >= 1], there
    is a frame, there is a label for every processed index, the frames have
    at least two dimensions, the tensor runtime raises nothing and, where a
    summary writer is registered, [kwargs] holds ['epoch'] and there is a
    label. *)
Theorem eval_psnr_is_mean_over_processed frames labels kwargs w :
  (∀ preds metrics w',
     eval self frames (Some labels) kwargs w = (Ok (preds, metrics), w') →
     ∃ steps ps,
       map s_i steps = py_range (clips self / 2) (length frames - clips self / 2) ∧
       Forall (λ s, lr_group_at self frames (s_i s) = Ok (s_lr s) ∧
                    RlspNet_forward (w_params w) (rlsp self) (s_lr s) (s_sr s)
                      (s_hidden s) = Ok (s_out s, s_next s)) steps ∧
       preds = map (λ s, to_numpy (detach (s_out s))) steps ∧
       Forall2 (λ s v, ∃ lbl, labels !! s_i s = Some lbl ∧
                              psnr (s_out s) lbl = Some v) steps ps ∧
       metrics !! "psnr" = Some (np_mean ps)) ∧
  (0 < clips self →
   0 < length frames →
   length frames - clips self / 2 ≤ length labels →
   Forall (λ f, 2 ≤ length (shape f)) frames →
   (w_writer w = true → is_Some (kwargs !! "epoch") ∧ 0 < length labels) →
   raises_runtime_error (eval self frames (Some labels) kwargs w).1 = false →
   ∃ preds metrics w',
     eval self frames (Some labels) kwargs w = (Ok (preds, metrics), w')).
Proof.
  split.
  - intros preds metrics w' Heval.
    apply eval_Ok_run in Heval
      as (first & up & steps & st & _ & _ & Hrun & -> & -> & _).
    destruct (eval_run_facts _ _ _ _ _ _ _ _ Hrun) as (Hpred & _ & ps & Hps & Hall).
    exists steps, ps. split_and!; [| |done|done|].
    + by eapply run_indices.
    + by eapply run_forward.
    + rewrite lookup_insert_eq. by rewrite Hps.
  - intros Hclips Hn Hlabels Hrank Hwriter Hrt.
    destruct (eval_returns frames (Some labels) kwargs w)
      as (first & up & steps & st & w' & _ & _ & _ & Heval & _);
      [done|done|by intros ls [= <-]|done| |done|by eexists _, _, w'].
    intros Hw. destruct (Hwriter Hw) as [Hepoch Hlen].
    split; [done|]. by exists labels.
Qed.

(** C10.  The list of predicted frames that an evaluation call on [n]
    frames returns has [max(0, n - 2 * (clips // 2))] entries, one per
    forward pass.  When [n < clips] the call makes no forward pass, whether
    it returns or not; the list it returns is empty and, with labels,
    ['psnr'] is [np.mean] of the empty list.  An evaluation call returns
    when [clips >= 1], there is a frame, the labels, where given, reach to
    the last processed index, the frames have at least two dimensions, the
    tensor runtime raises nothing and, where a summary writer is registered,
    [kwargs] holds ['epoch'] and there is a label. *)
Theorem eval_predicts_count frames labels kwargs w :
  (∀ preds metrics w',
     eval self frames labels kwargs w = (Ok (preds, metrics), w') →
     Z.of_nat (length preds)
       = (0 `max` (Z.of_nat (length frames) - 2 * (Z.of_nat (clips self) `div` 2)))%Z ∧
     length (forwards (new_events w w')) = length preds ∧
     (length frames < clips self →
        preds = [] ∧
        (is_Some labels → metrics !! "psnr" = Some (np_mean [])))) ∧
  (length frames < clips self →
   forwards (new_events w (eval self frames labels kwargs w).2) = []) ∧
  (0 < clips self →
   0 < length frames →
   (∀ ls, labels = Some ls → length frames - clips self / 2 ≤ length ls) →
   Forall (λ f, 2 ≤ length (shape f)) frames →
   (w_writer w = true →
    is_Some (kwargs !! "epoch") ∧ ∃ ls, labels = Some ls ∧ 0 < length ls) →
   raises_runtime_error (eval self frames labels kwargs w).1 = false →
   ∃ preds metrics w', eval self frames labels kwargs w = (Ok (preds, metrics), w')).
Proof.
  split_and!.
  - intros preds metrics w' Heval.
    apply eval_Ok_run in Heval
      as (first & up & steps & st & _ & _ & Hrun & -> & -> & Hfw).
    destruct (eval_run_facts _ _ _ _ _ _ _ _ Hrun) as (Hpred & _ & ps & Hps & Hall).
    pose proof (run_indices _ _ _ _ _ _ _ _ _ _ Hrun) as Hidx.
    apply (f_equal length) in Hidx.
    unfold py_range in Hidx. rewrite length_map, length_seq in Hidx.
    simpl in Hpred, Hps. split_and!.
    + rewrite Hpred, length_map, Hidx.
      pose proof (Nat2Z.inj_div (clips self) 2) as Hdiv.
      change (Z.of_nat 2) with 2%Z in Hdiv. rewrite <- Hdiv. lia.
    + by rewrite Hfw, Hpred, !length_map.
    + intros Hshort. assert (steps = []) as ->.
      { apply length_zero_iff_nil. rewrite Hidx.
        pose proof (short_sequence_range _ _ Hshort). lia. }
      split; [by rewrite Hpred|].
      intros [ls ->]. apply Forall2_nil_inv_l in Hall as ->.
      by rewrite lookup_insert_eq, Hps.
  - apply eval_short_no_forward.
  - intros Hclips Hn Hlabels Hrank Hwriter Hrt.
    destruct (eval_returns frames labels kwargs w)
      as (first & up & steps & st & w' & _ & _ & _ & Heval & _); [done..|].
    by eexists _, _, w'.
Qed.



(** The evaluation half of C1 does not hold: every forward pass of an
    evaluation call gets no hidden state, whatever the passes before it
    returned. *)
Lemma eval_hidden_state_always_none frames labels kwargs w k g sr h :
  forwards (new_events w (eval self frames labels kwargs w).2) !! k
    = Some (g, sr, h) →
  h = None.
Proof.
  destruct (eval_calls self frames labels kwargs w)
    as [->|(first & up & _ & _ & Hth & _)]; [done|].
  revert Hth. generalize (zeros_like up).
  generalize (forwards (new_events w (eval self frames labels kwargs w).2)).
  intros calls. revert k.
  induction calls as [|[[g0 s0] h0] rest IH]; intros k t Hth Hk; [done|].
  simpl in Hth. destruct Hth as (-> & -> & Hrest).
  destruct k as [|k]; [by injection Hk as <- <- <-|].
  destruct rest as [|c rest']; [done|].
  destruct Hrest as (out & next & _ & Hth). by eapply IH.
Qed.

(** C4, as amended.  The forward pass of the [k]-th processed index
    [i = clips // 2 + k], in training and in evaluation, is fed the [clips]
    consecutive frames [frames[i - clips // 2], ...,
    frames[i - clips // 2 + clips - 1]]; when [clips] is odd these are
    [frames[i - clips // 2], ..., frames[i + clips // 2]], centred on frame
    [i].  The cell gets the window, the hidden state and the detached
    space-to-depth rearrangement of the previous super-resolved frame,
    concatenated along the channel dimension. *)
Theorem window_and_network_input frames labels learning_rate elabels kwargs w
    calls k g sr h :
  calls = forwards (new_events w (train self frames labels learning_rate w).2) ∨
  calls = forwards (new_events w (eval self frames elabels kwargs w).2) →
  calls !! k = Some (g, sr, h) →
  ∃ i, i = clips self / 2 + k ∧
    i < length frames - clips self / 2 ∧
    g = take (clips self) (drop (i - clips self / 2) frames) ∧
    length g = clips self ∧
    (Nat.odd (clips self) = true →
       g = frames_from_to frames (i - clips self / 2) (i + clips self / 2)) ∧
    ∀ out next,
      RlspNet_forward (w_params w) (rlsp self) g sr h = Ok (out, next) →
      ∃ lrc hid shuffled inputs x,
        cat g = Some lrc ∧
        match h with
        | Some h' => hid = h'
        | None => initial_hidden (rlsp self) g = Ok hid
        end ∧
        space_to_depth (scale self) sr = Some shuffled ∧
        cat [lrc; hid; detach shuffled] = Some inputs ∧
        Sequential_forward (w_params w) (cell (rlspcell (rlsp self))) inputs = Ok x ∧
        conv2d (w_params w) (hidden (rlspcell (rlsp self))) x = Some next.
Proof.
  intros Hcalls Hk.
  assert (∃ i, py_range (clips self / 2) (length frames - clips self / 2) !! k
               = Some i ∧ lr_group_at self frames i = Ok g) as (i & Hi & Hg).
  { destruct Hcalls as [->| ->].
    - destruct (train_calls self frames labels learning_rate w)
        as [Hnil|(first & up & _ & _ & _ & Hwin)]; [by rewrite Hnil in Hk|].
      by eapply Hwin.
    - destruct (eval_calls self frames elabels kwargs w)
        as [Hnil|(first & up & _ & _ & _ & Hwin)]; [by rewrite Hnil in Hk|].
      by eapply Hwin. }
  unfold py_range in Hi. apply lookup_seq in Hi as [-> Hlt].
  apply lr_group_at_Ok in Hg as [Hg Hlen]; [|lia].
  exists (clips self / 2 + k). split_and!; [done|lia|done|done| |].
  - intros Hodd. rewrite Hg. unfold frames_from_to. f_equal.
    apply Nat.odd_spec in Hodd as [m Hm].
    pose proof (Nat.div_mod_eq (clips self) 2) as Hdm.
    pose proof (Nat.mod_upper_bound (clips self) 2). lia.
  - intros out next Hfw.
    apply RlspNet_forward_Ok in Hfw
      as (hid & mid & center & shuffled & lrc & inputs & x & res & up & Hhid & _
          & _ & Hs & Hlrc & Hin & Hx & Hn & _).
    by exists lrc, hid, shuffled, inputs, x.
Qed.

(** C9.  A training call with [learning_rate=None] leaves the parameter
    groups of the optimizer as they are.  A call with a truthy
    [learning_rate] sets the ['lr'] entry of every group to that value, other
    entries staying as they are, and the optimizer step, when the call gets
    to it, is taken with these groups. *)
Theorem train_learning_rate frames labels learning_rate w :
  match learning_rate with
  | None =>
      w_param_groups (train self frames labels learning_rate w).2
      = w_param_groups w
  | Some q =>
      py_truthy learning_rate = true →
      w_param_groups (train self frames labels learning_rate w).2
      = (<["lr" := q]>) <$> w_param_groups w ∧
      Forall (λ g, g !! "lr" = Some q)
        (w_param_groups (train self frames labels learning_rate w).2) ∧
      ∀ groups,
        EvStep groups ∈ new_events w (train self frames labels learning_rate w).2 →
        groups = (<["lr" := q]>) <$> w_param_groups w
  end.
Proof.
  destruct (train self frames labels learning_rate w) as [r w'] eqn:Htrain.
  apply train_cases in Htrain as (p' & new & -> & Hcases).
  destruct learning_rate as [q|]; [|done].
  intros Htruthy. unfold set_lr in *. rewrite Htruthy in *.
  cbn [snd w_param_groups]. split_and!; [done| |].
  - apply Forall_forall. intros g Hg.
    apply list_elem_of_fmap in Hg as (g0 & -> & _). apply lookup_insert_eq.
  - unfold new_events. cbn [w_trace]. rewrite drop_app_length. intros groups Hin.
    destruct Hcases as [(_ & _ & -> & _)|[(first & _ & _ & _ & -> & _)|Hloop]];
      [by apply not_elem_of_nil in Hin..|].
    destruct Hloop as (first & up & rl & evs & _ & _ & Hout & Hafter).
    apply outcome_only_forwards in Hout. rewrite Forall_forall in Hout.
    assert (EvStep groups ∉ evs) as Hevs.
    { intros Hin'. by destruct (Hout _ Hin') as (? & ? & ? & ?). }
    assert (Hrest : ∀ rest, EvStep groups ∈ evs ++ rest →
              (∀ e, e ∈ rest → e = EvStep groups →
                 groups = (<["lr" := q]>) <$> w_param_groups w) →
              groups = (<["lr" := q]>) <$> w_param_groups w).
    { intros rest Hin' Hr. apply elem_of_app in Hin' as [?|?]; [done|eauto]. }
    unfold train_after_loop in Hafter.
    destruct rl as [st|e]; [|by destruct Hafter as (_ & -> & _)].
    destruct (total_loss st) as [z|total].
    { destruct Hafter as (_ & -> & _). apply (Hrest _ Hin). intros e He ->.
      by apply list_elem_of_singleton in He. }
    destruct (backward total _) as [p1|].
    + destruct Hafter as (-> & _). apply (Hrest _ Hin). intros e He ->.
      repeat (apply elem_of_cons in He as [He|He]; [by simplify_eq|]).
      by apply elem_of_nil in He.
    + destruct Hafter as (_ & -> & _). apply (Hrest _ Hin). intros e He ->.
      repeat (apply elem_of_cons in He as [He|He]; [by simplify_eq|]).
      by apply elem_of_nil in He.
Qed.

End Claims.

(** ** The values of the returned dictionaries *)

Section Scalars.
Context `{T : Torch} (scale0 channel0 clips0 layers0 filters0 : nat).
Local Abbreviation self := (RLSP_init scale0 channel0 clips0 layers0 filters0).

(** What the runtime returns where it returns: [F.mse_loss] reduces to a
    scalar, the sum of two scalars is a scalar, [int + tensor] and [detach]
    keep the shape. *)
Hypothesis detach_shape : ∀ t, shape (detach t) = shape t.
Hypothesis mse_loss_scalar : ∀ a b l, mse_loss a b = Some l → shape l = [].
Hypothesis add_scalar : ∀ a b c,
  add a b = Some c → shape a = [] → shape b = [] → shape c = [].
Hypothesis radd_int_shape : ∀ z t c, radd_int z t = Some c → shape c = shape t.




End Scalars.

(** ** Shapes *)

Section Shapes.
Context `{T : Torch}.

(** How the operations of the runtime act on the shape [[N; C; H; W]] of
    their arguments: torch's [zeros], [detach], [F.interpolate] (nearest,
    integer scale factor), [F.pixel_shuffle], [torch.cat] along dimension 1
    and addition of equal shapes; the framework's [SpaceToDepth] and its
    [EasyConv2d], which pads a kernel of size 3 to keep height and width. *)
Hypothesis zeros_shape : ∀ shp, shape (zeros shp) = shp.
Hypothesis detach_shape : ∀ t, shape (detach t) = shape t.
Hypothesis interpolate_shape : ∀ t k N C H W,
  shape t = [N; C; H; W] →
  ∃ t', interpolate t k = Some t' ∧ shape t' = [N; C; k * H; k * W].
Hypothesis pixel_shuffle_shape : ∀ t k N C H W,
  0 < k → shape t = [N; C * k ^ 2; H; W] →
  ∃ t', pixel_shuffle t k = Some t' ∧ shape t' = [N; C; k * H; k * W].
Hypothesis space_to_depth_shape : ∀ t k N C H W,
  0 < k → shape t = [N; C; k * H; k * W] →
  ∃ t', space_to_depth k t = Some t' ∧ shape t' = [N; C * k ^ 2; H; W].
Hypothesis cat_shape : ∀ ts cs N H W,
  ts ≠ [] → Forall2 (λ t c, shape t = [N; c; H; W]) ts cs →
  ∃ t', cat ts = Some t' ∧ shape t' = [N; sum_list cs; H; W].
Hypothesis conv2d_shape : ∀ p l t N H W,
  kernel_size l = 3 → shape t = [N; in_channels l; H; W] →
  ∃ t', conv2d p l t = Some t' ∧ shape t' = [N; out_channels l; H; W].
Hypothesis add_shape : ∀ a b,
  shape a = shape b → ∃ t', add a b = Some t' ∧ shape t' = shape a.

Lemma Sequential_forward_shape p f N H W ls : ∀ x,
  Forall (λ l, kernel_size l = 3 ∧ in_channels l = f ∧ out_channels l = f) ls →
  shape x = [N; f; H; W] →
  ∃ y, Sequential_forward p ls x = Ok y ∧ shape y = [N; f; H; W].
Proof.
  induction ls as [|l ls IH]; intros x Hls Hx; [by exists x|].
  apply Forall_cons in Hls as [(Hk & Hin & Hout) Hls].
  destruct (conv2d_shape p l x N H W Hk) as (y & Hy & Hshape);
    [by rewrite Hin|].
  rewrite Hout in Hshape. destruct (IH y Hls Hshape) as (z & Hz & Hzs).
  exists z. split; [|done]. simpl. by rewrite Hy.
Qed.

(** C5.  A forward pass of [RlspNet] on a window of [depth] frames of
    shape [[N; C; H; W]], with a previous super-resolved frame of shape
    [[N; C; scale * H; scale * W]] and a hidden state that is absent or of
    shape [[N; filters; H; W]], returns a frame of shape
    [[N; C; scale * H; scale * W]], the interpolated frame of the middle of
    the window plus the pixel-shuffled residual, and a next hidden state of
    shape [[N; filters; H; W]]. *)
Theorem RlspNet_forward_shapes p scale0 channel0 depth layers0 filters0
    lr sr h N H W :
  0 < scale0 →
  0 < depth →
  length lr = depth →
  Forall (λ t, shape t = [N; channel0; H; W]) lr →
  shape sr = [N; channel0; scale0 * H; scale0 * W] →
  (∀ h', h = Some h' → shape h' = [N; filters0; H; W]) →
  ∃ out next mid center res up,
    RlspNet_forward p (RlspNet_init scale0 channel0 depth layers0 filters0) lr sr h
      = Ok (out, next) ∧
    shape out = [N; channel0; scale0 * H; scale0 * W] ∧
    shape next = [N; filters0; H; W] ∧
    lr !! (depth / 2) = Some mid ∧
    interpolate mid scale0 = Some center ∧
    pixel_shuffle res scale0 = Some up ∧
    add center up = Some out.
Proof.
  intros Hscale Hdepth Hlen Hlr Hsr Hh.
  assert (∃ hid, match h with
                 | Some h' => Ok h'
                 | None => initial_hidden
                             (RlspNet_init scale0 channel0 depth layers0 filters0) lr
                 end = Ok hid ∧ shape hid = [N; filters0; H; W])
    as (hid & Hhid & Hhids).
  { destruct h as [h'|]; [exists h'; auto|].
    destruct lr as [|lr0 lr']; [simpl in Hlen; lia|].
    apply Forall_cons in Hlr as [Hlr0 _].
    exists (zeros [N; filters0; H; W]). split; [|by rewrite zeros_shape].
    unfold initial_hidden, py_index, py_setitem. simpl. by rewrite Hlr0. }
  destruct (lr !! (depth / 2)) as [mid|] eqn:Hmid.
  2:{ apply lookup_ge_None in Hmid.
      pose proof (Nat.div_lt depth 2). lia. }
  assert (Hmids : shape mid = [N; channel0; H; W]).
  { rewrite Forall_forall in Hlr. by apply Hlr, list_elem_of_lookup_2 with (depth / 2). }
  destruct (interpolate_shape mid scale0 _ _ _ _ Hmids) as (center & Hc & Hcs).
  destruct (space_to_depth_shape sr scale0 _ _ _ _ Hscale Hsr)
    as (shuffled & Hs & Hss).
  destruct (cat_shape lr (replicate depth channel0) N H W) as (lrc & Hlrc & Hlrcs).
  { intros ->. simpl in Hlen. lia. }
  { rewrite <- Hlen. clear -Hlr. induction Hlr; constructor; auto. }
  assert (Hsum : sum_list (replicate depth channel0) = channel0 * depth).
  { clear. induction depth as [|d IH]; simpl; lia. }
  rewrite Hsum in Hlrcs.
  destruct (cat_shape [lrc; hid; detach shuffled]
              [channel0 * depth; filters0; channel0 * scale0 ^ 2] N H W)
    as (inputs & Hin & Hins); [done| |].
  { repeat constructor; [done..|]. by rewrite detach_shape. }
  replace (sum_list [channel0 * depth; filters0; channel0 * scale0 ^ 2])
    with (channel0 * depth + filters0 + channel0 * scale0 ^ 2) in Hins
    by (simpl; lia).
  set (net := RlspNet_init scale0 channel0 depth layers0 filters0).
  destruct (cell (rlspcell net)) as [|l0 ls] eqn:Hcell; [done|].
  injection Hcell as <- <-.
  destruct (conv2d_shape p (mkConv 0 (channel0 * depth + filters0 + channel0 * scale0 ^ 2)
                              filters0 3 (Some "relu")) inputs N H W eq_refl Hins)
    as (x0 & Hx0 & Hx0s).
  cbn [out_channels] in Hx0s.
  destruct (Sequential_forward_shape p filters0 N H W
              (map (λ i, mkConv i filters0 filters0 3 (Some "relu"))
                 (py_range 1 (layers0 - 1))) x0) as (x & Hx & Hxs); [|done|].
  { apply Forall_forall. intros l Hl.
    by apply list_elem_of_fmap in Hl as (i & -> & _). }
  destruct (conv2d_shape p (hidden (rlspcell net)) x N H W eq_refl Hxs)
    as (next & Hn & Hns).
  destruct (conv2d_shape p (exit (rlspcell net)) x N H W eq_refl Hxs)
    as (res & Hr & Hrs).
  cbn [out_channels net RlspNet_init RLSPCell_init rlspcell hidden exit] in Hns, Hrs.
  destruct (pixel_shuffle_shape res scale0 _ _ _ _ Hscale Hrs) as (up & Hu & Hus).
  destruct (add_shape center up) as (out & Ho & Hos); [congruence|].
  exists out, next, mid, center, res, up.
  split_and!; [|congruence|done..].
  subst net. unfold RlspNet_forward, RLSPCell_forward, py_index.
  cbn [net_d net_s shuffle rlspcell cell hidden exit RlspNet_init RLSPCell_init]
    in Hn, Hr |- *.
  rewrite Hhid, Hmid. cbn [mbind res_bind rt].
  rewrite Hc. cbn [mbind res_bind rt].
  rewrite Hs. cbn [mbind res_bind rt].
  rewrite Hlrc. cbn [mbind res_bind rt].
  rewrite Hin. cbn [mbind res_bind rt Sequential_forward].
  rewrite Hx0. cbn [mbind res_bind rt].
  rewrite Hx. cbn [mbind res_bind rt].
  rewrite Hn. cbn [mbind res_bind rt].
  rewrite Hr. cbn [mbind res_bind rt].
  rewrite Hu. cbn [mbind res_bind rt].
  by rewrite Ho.
Qed.

End Shapes.

(** ** Concrete runs *)

(** C2 on four frames with three clips and the three labels that the
    processed indices 1 and 2 need. *)
Lemma train_loss_and_single_step_witness :
  ∃ d w' steps losses total image,
    train (T := SymTorch) (sym_model 3) lr4 hr3 None (sym_world false) = (Ok d, w') ∧
    2 * (clips (sym_model 3) / 2) < length lr4 ∧
    map s_i steps = [1; 2] ∧
    Forall (λ s, lr_group_at (sym_model 3) lr4 (s_i s) = Ok (s_lr s) ∧
                 RlspNet_forward (w_params (sym_world false)) (rlsp (sym_model 3))
                   (s_lr s) (s_sr s) (s_hidden s) = Ok (s_out s, s_next s)) steps ∧
    Forall2 (λ s l, ∃ lbl, hr3 !! s_i s = Some lbl ∧
                           mse_loss (s_out s) lbl = Some l) steps losses ∧
    py_sum losses = Ok (PyTensor total) ∧
    py_sum (detach <$> losses) = Ok (PyTensor image) ∧
    new_events (sym_world false) w' =
      map step_event steps
      ++ [EvZeroGrad; EvBackward total; EvStep (w_param_groups w')] ∧
    d !! "total_loss"
      = Some (np_div (to_numpy (detach total)) (length lr4)) ∧
    d !! "image_loss"
      = Some (np_div (to_numpy image) (length lr4)).
Proof.
  destruct (train_loss_and_single_step (T := SymTorch) 2 1 3 3 4
              lr4 hr3 None (sym_world false)) as [Hresult Hreturns].
  destruct Hreturns as (d & w' & Htrain).
  - vm_compute; lia.
  - vm_compute; lia.
  - vm_compute; lia.
  - vm_compute. repeat constructor.
  - vm_compute. reflexivity.
  - destruct (Hresult d w' Htrain) as (steps & losses & total & image & H).
    by exists d, w', steps, losses, total, image.
Defined.

(** C2, as stated, fails for an even [clips]: with [clips = 2] and two
    frames ([n >= clips]) the loop runs over the empty [range(1, 1)],
    [total_loss] is still the integer [0], and [total_loss.backward()]
    raises; no gradient is computed, no optimizer step is taken and nothing
    is returned. *)
Lemma train_even_clips_counterexample :
  clips (sym_model 2) ≤ length lr2 ∧
  train (sym_model 2) lr2 hr4 None (sym_world false)
  = (Err AttributeError,
     mkWorld (0 : @params SymTorch) RLSP_init_param_groups false [EvZeroGrad]).
Proof. split; [vm_compute; lia|]. vm_compute. reflexivity. Qed.

(** C3 on four frames with three clips and three labels, with a summary
    writer in epoch 1. *)
Lemma eval_psnr_is_mean_over_processed_witness :
  ∃ preds metrics w' steps ps,
    eval (T := SymTorch) (sym_model 3) lr4 (Some hr3) {[ "epoch" := 1%Z ]}
      (sym_world true) = (Ok (preds, metrics), w') ∧
    map s_i steps = [1; 2] ∧
    Forall (λ s, lr_group_at (sym_model 3) lr4 (s_i s) = Ok (s_lr s) ∧
                 RlspNet_forward (w_params (sym_world true)) (rlsp (sym_model 3))
                   (s_lr s) (s_sr s) (s_hidden s) = Ok (s_out s, s_next s)) steps ∧
    preds = map (λ s, to_numpy (detach (s_out s))) steps ∧
    Forall2 (λ s v, ∃ lbl, hr3 !! s_i s = Some lbl ∧
                           psnr (s_out s) lbl = Some v) steps ps ∧
    metrics !! "psnr" = Some (np_mean ps).
Proof.
  destruct (eval_psnr_is_mean_over_processed (T := SymTorch) 2 1 3 3 4
              lr4 hr3 {[ "epoch" := 1%Z ]} (sym_world true))
    as [Hresult Hreturns].
  destruct Hreturns as (preds & metrics & w' & Heval).
  - vm_compute; lia.
  - vm_compute; lia.
  - vm_compute; lia.
  - vm_compute. repeat constructor.
  - intros _. split; [by eexists|vm_compute; lia].
  - vm_compute. reflexivity.
  - destruct (Hresult preds metrics w' Heval) as (steps & ps & H).
    by exists preds, metrics, w', steps, ps.
Defined.

(** C3, as stated, fails where a summary writer is registered and the
    call is not told the epoch: with labels and [n >= clips] frames the call
    raises [KeyError] at [kwargs['epoch']], after the loop, and returns no
    metrics. *)
Lemma eval_psnr_missing_epoch_counterexample :
  clips (sym_model 3) ≤ length lr4 ∧
  length lr4 ≤ length hr4 ∧
  (eval (T := SymTorch) (sym_model 3) lr4 (Some hr4) ∅ (sym_world true)).1
  = Err KeyError.
Proof. split_and!; [vm_compute; lia..|]. vm_compute. reflexivity. Qed.

(** C10 on four frames with three clips and three labels, where two frames
    are predicted, and on two frames, where none is. *)
Lemma eval_predicts_count_witness :
  (∃ preds metrics w',
     eval (T := SymTorch) (sym_model 3) lr4 (Some hr3) ∅ (sym_world false)
       = (Ok (preds, metrics), w') ∧
     Z.of_nat (length preds) = 2%Z ∧
     length (forwards (new_events (sym_world false) w')) = length preds) ∧
  (∃ preds metrics w',
     eval (T := SymTorch) (sym_model 3) lr2 (Some hr4) ∅ (sym_world false)
       = (Ok (preds, metrics), w') ∧
     preds = [] ∧
     forwards (new_events (sym_world false) w') = [] ∧
     metrics !! "psnr" = Some (np_mean [])).
Proof.
  split.
  - destruct (eval_predicts_count (T := SymTorch) 2 1 3 3 4
                lr4 (Some hr3) ∅ (sym_world false))
      as (Hresult & _ & Hreturns).
    destruct Hreturns as (preds & metrics & w' & Heval).
    + vm_compute; lia.
    + vm_compute; lia.
    + intros ls [= <-]. vm_compute; lia.
    + vm_compute. repeat constructor.
    + vm_compute. discriminate.
    + vm_compute. reflexivity.
    + destruct (Hresult preds metrics w' Heval) as (Hcount & Hpasses & _).
      by exists preds, metrics, w'.
  - destruct (eval_predicts_count (T := SymTorch) 2 1 3 3 4
                lr2 (Some hr4) ∅ (sym_world false))
      as (Hresult & Hshort & Hreturns).
    destruct Hreturns as (preds & metrics & w' & Heval).
    + vm_compute; lia.
    + vm_compute; lia.
    + intros ls [= <-]. vm_compute; lia.
    + vm_compute. repeat constructor.
    + vm_compute. discriminate.
    + vm_compute. reflexivity.
    + destruct (Hresult preds metrics w' Heval) as (_ & _ & Hempty).
      destruct Hempty as [-> Hpsnr]; [vm_compute; lia|].
      exists [], metrics, w'. split_and!; [done|done| |by apply Hpsnr].
      assert (Hfw := Hshort). rewrite Heval in Hfw. apply Hfw. vm_compute; lia.
Defined.







(** C4 for the first forward pass of a training call on four frames. *)
Lemma window_and_network_input_witness :
  ∃ i, i = clips (sym_model 3) / 2 + 0 ∧
    i < length lr4 - clips (sym_model 3) / 2 ∧
    first_call.1.1
      = take (clips (sym_model 3)) (drop (i - clips (sym_model 3) / 2) lr4) ∧
    length first_call.1.1 = clips (sym_model 3) ∧
    (Nat.odd (clips (sym_model 3)) = true →
       first_call.1.1
       = frames_from_to lr4 (i - clips (sym_model 3) / 2)
           (i + clips (sym_model 3) / 2)) ∧
    ∀ out next,
      RlspNet_forward (w_params (sym_world false)) (rlsp (sym_model 3))
        first_call.1.1 first_call.1.2 first_call.2 = Ok (out, next) →
      ∃ lrc hid shuffled inputs x,
        cat first_call.1.1 = Some lrc ∧
        match first_call.2 with
        | Some h' => hid = h'
        | None => initial_hidden (rlsp (sym_model 3)) first_call.1.1 = Ok hid
        end ∧
        space_to_depth (scale (sym_model 3)) first_call.1.2 = Some shuffled ∧
        cat [lrc; hid; detach shuffled] = Some inputs ∧
        Sequential_forward (w_params (sym_world false))
          (cell (rlspcell (rlsp (sym_model 3)))) inputs = Ok x ∧
        conv2d (w_params (sym_world false))
          (hidden (rlspcell (rlsp (sym_model 3)))) x = Some next.
Proof.
  apply (window_and_network_input (T := SymTorch) 2 1 3 3 4
           lr4 hr4 None None ∅ (sym_world false)
           (forwards (new_events (sym_world false)
                        (train (T := SymTorch) (sym_model 3) lr4 hr4 None
                           (sym_world false)).2))
           0 first_call.1.1 first_call.1.2 first_call.2).
  - left. reflexivity.
  - vm_compute. reflexivity.
Defined.

(** C9 for a training call with [learning_rate=1e-3]. *)
Lemma train_learning_rate_witness :
  w_param_groups
    (train (sym_model 3) lr4 hr4 (Some (1 # 1000)%Q) (sym_world false)).2
  = (<["lr" := (1 # 1000)%Q]>) <$> w_param_groups (sym_world false) ∧
  Forall (λ g, g !! "lr" = Some (1 # 1000)%Q)
    (w_param_groups
       (train (sym_model 3) lr4 hr4 (Some (1 # 1000)%Q) (sym_world false)).2) ∧
  ∀ groups,
    EvStep groups
    ∈ new_events (sym_world false)
        (train (sym_model 3) lr4 hr4 (Some (1 # 1000)%Q) (sym_world false)).2 →
    groups = (<["lr" := (1 # 1000)%Q]>) <$> w_param_groups (sym_world false).
Proof.
  apply (train_learning_rate (T := SymTorch) 2 1 3 3 4
           lr4 hr4 (Some (1 # 1000)%Q) (sym_world false)).
  vm_compute. reflexivity.
Defined.

(** C4, as stated, fails for an even [clips]: with [clips = 2] the window of
    the first processed index [i = 1] is [frames[0], frames[1]], not
    [frames[i - 1], ..., frames[i + 1]], which are three frames. *)
Lemma window_even_clips_counterexample :
  ∃ g sr h,
    forwards (new_events (sym_world false)
                (train (sym_model 2) lr3
                   hr4 None (sym_world false)).2) !! 0
    = Some (g, sr, h) ∧
    g = sym_frames 2 [1; 1; 2; 2] ∧
    frames_from_to lr3
      (1 - clips (sym_model 2) / 2) (1 + clips (sym_model 2) / 2)
    = sym_frames 3 [1; 1; 2; 2] ∧
    g ≠ frames_from_to lr3
          (1 - clips (sym_model 2) / 2) (1 + clips (sym_model 2) / 2).
Proof.
  exists lr2, (Sym "zeros" [] [] [1; 1; 4; 4]), None.
  split_and!; [vm_compute; reflexivity|reflexivity|vm_compute; reflexivity|].
  vm_compute. discriminate.
Qed.

(** C1 at a failing input.  On four frames with [clips = 3] both calls make
    two forward passes, on the same windows and with the same feedback
    frames.  The first pass returns a hidden state [next]; the second pass
    of the training call is given it, the second pass of the evaluation
    call is given [None], for which the network substitutes zeros. *)
Lemma eval_drops_hidden_state :
  ∃ g1 sr1 g2 sr2 out next,
    forwards (w_trace (train (sym_model 3) lr4 hr4 None (sym_world false)).2)
      = [(g1, sr1, None); (g2, sr2, Some next)] ∧
    forwards (w_trace (eval (sym_model 3) lr4 (Some hr4) ∅ (sym_world false)).2)
      = [(g1, sr1, None); (g2, sr2, None)] ∧
    RlspNet_forward (w_params (sym_world false)) (rlsp (sym_model 3)) g1 sr1 None
      = Ok (out, next).
Proof.
  do 6 eexists. split_and!.
  - lazy. reflexivity.
  - vm_compute. reflexivity.
  - vm_compute. reflexivity.
Qed.

(** C7 at a failing input.  With a summary writer registered, an
    evaluation call without labels raises [TypeError] at
    [writer.image('label', labels[i], step=step)], after the loop and the
    ['clean'] image; without a writer the same call returns. *)
Lemma eval_without_labels_raises :
  (eval (sym_model 3) lr4 None {[ "epoch" := 1%Z ]} (sym_world true)).1
    = Err TypeError ∧
  raises_runtime_error
    (eval (sym_model 3) lr4 None {[ "epoch" := 1%Z ]} (sym_world true)).1 = false ∧
  ∃ preds metrics,
    (eval (sym_model 3) lr4 None {[ "epoch" := 1%Z ]} (sym_world false)).1
      = Ok (preds, metrics).
Proof.
  split_and!; [vm_compute; reflexivity..|].
  do 2 eexists. lazy. reflexivity.
Qed.

(** ** The symbolic runtime has the shapes of torch *)

Lemma sym_resize_shape op (t : sym) k N C H W :
  sym_shape t = [N; C; H; W] →
  ∃ t', sym_resize op t k = Some t' ∧ sym_shape t' = [N; C; k * H; k * W].
Proof. intros Ht. unfold sym_resize. rewrite Ht. by eexists. Qed.

Lemma sym_pixel_shuffle_shape (t : sym) k N C H W :
  0 < k → sym_shape t = [N; C * k ^ 2; H; W] →
  ∃ t', sym_pixel_shuffle t k = Some t' ∧ sym_shape t' = [N; C; k * H; k * W].
Proof.
  intros Hk Ht. unfold sym_pixel_shuffle. rewrite Ht.
  assert (k ^ 2 ≠ 0) as Hk2 by (apply Nat.pow_nonzero; lia).
  rewrite bool_decide_eq_true_2.
  - eexists. split; [done|]. simpl. by rewrite Nat.div_mul.
  - split; [done|]. by apply Nat.Div0.mod_mul.
Qed.

Lemma sym_space_to_depth_shape (t : sym) k N C H W :
  0 < k → sym_shape t = [N; C; k * H; k * W] →
  ∃ t', sym_space_to_depth k t = Some t' ∧ sym_shape t' = [N; C * k ^ 2; H; W].
Proof.
  intros Hk Ht. unfold sym_space_to_depth. rewrite Ht.
  rewrite bool_decide_eq_true_2.
  - eexists. split; [done|]. simpl.
    by rewrite !(Nat.mul_comm k), !Nat.div_mul by lia.
  - rewrite !(Nat.mul_comm k). split_and!; [done|by apply Nat.Div0.mod_mul..].
Qed.

Lemma sym_cat_shape (ts : list sym) cs N H W :
  ts ≠ [] → Forall2 (λ t c, sym_shape t = [N; c; H; W]) ts cs →
  ∃ t', sym_cat ts = Some t' ∧ sym_shape t' = [N; sum_list cs; H; W].
Proof.
  intros Hne Hall. destruct ts as [|t0 ts0] eqn:Hts; [done|].
  rewrite <- Hts in *. clear Hne.
  assert (Ht0 : ∃ c0, sym_shape t0 = [N; c0; H; W]).
  { rewrite Hts in Hall. inversion Hall; subst. by eexists. }
  destruct Ht0 as [c0 Ht0].
  assert (Hsame : forallb (λ t, same_but_channel (sym_shape t0) (sym_shape t)) ts
                  = true).
  { apply Is_true_true, forallb_True, Forall_forall. intros t Ht.
    apply (Forall2_Forall_l _ (λ t, ∃ c, sym_shape t = [N; c; H; W])) in Hall.
    - rewrite Forall_forall in Hall. destruct (Hall t Ht) as [c Hc].
      rewrite Ht0, Hc. simpl. by apply bool_decide_pack.
    - apply Forall_forall. intros c _ t' Ht'. by exists c. }
  assert (Hsum : sum_list (map (λ t, channels (sym_shape t)) ts) = sum_list cs).
  { clear -Hall. induction Hall as [|t c ts cs Ht _ IH]; [done|].
    simpl. by rewrite Ht, IH. }
  unfold sym_cat. subst ts. rewrite Hsame.
  eexists. split; [done|]. cbn [sym_shape]. by rewrite Ht0, Hsum.
Qed.

Lemma sym_conv2d_shape p l (t : sym) N H W :
  kernel_size l = 3 → sym_shape t = [N; in_channels l; H; W] →
  ∃ t', sym_conv2d p l t = Some t' ∧ sym_shape t' = [N; out_channels l; H; W].
Proof.
  intros _ Ht. unfold sym_conv2d. rewrite Ht.
  rewrite bool_decide_eq_true_2 by done. by eexists.
Qed.

Lemma sym_add_shape (a b : sym) :
  sym_shape a = sym_shape b →
  ∃ t', sym_binop "add" id a b = Some t' ∧ sym_shape t' = sym_shape a.
Proof.
  intros Hab. unfold sym_binop. rewrite bool_decide_eq_true_2 by done.
  by eexists.
Qed.

(** C5 on a window of three frames of 2 x 2 pixels, upscaled twice. *)
Lemma RlspNet_forward_shapes_witness :
  ∃ out next mid center res up,
    RlspNet_forward (0 : @params SymTorch) (RlspNet_init 2 1 3 3 4) lr3
      (Sym "zeros" [] [] [1; 1; 2 * 2; 2 * 2]) None = Ok (out, next) ∧
    shape out = [1; 1; 2 * 2; 2 * 2] ∧
    shape next = [1; 4; 2; 2] ∧
    lr3 !! (3 / 2) = Some mid ∧
    interpolate mid 2 = Some center ∧
    pixel_shuffle res 2 = Some up ∧
    add center up = Some out.
Proof.
  apply (RlspNet_forward_shapes (T := SymTorch)).
  - reflexivity.
  - reflexivity.
  - apply sym_resize_shape.
  - apply sym_pixel_shuffle_shape.
  - apply sym_space_to_depth_shape.
  - apply sym_cat_shape.
  - apply sym_conv2d_shape.
  - apply sym_add_shape.
  - lia.
  - lia.
  - reflexivity.
  - vm_compute. repeat constructor.
  - reflexivity.
  - discriminate.
Defined.

(** * Further properties of the code *)

(** ** The network *)

Section Network.
Context `{T : Torch}.

(** X1.  Passing [hidden=None] to [RlspNet.forward] is passing a zero
    tensor that has the shape of the first frame of the window with the
    channel count replaced by [filters]. *)
Theorem RlspNet_forward_hidden_default p net lr sr lr0 N C rest :
  lr !! 0 = Some lr0 →
  shape lr0 = N :: C :: rest →
  RlspNet_forward p net lr sr None
  = RlspNet_forward p net lr sr (Some (zeros (N :: net_f net :: rest))).
Proof.
  intros Hlr0 Hshape. unfold RlspNet_forward.
  assert (initial_hidden net lr = Ok (zeros (N :: net_f net :: rest))) as ->; [|done].
  unfold initial_hidden, py_index, py_setitem. rewrite Hlr0. simpl.
  rewrite Hshape. done.
Qed.

(** X2.  The exceptions of [RlspNet.forward] that are not the runtime's:
    it raises [IndexError] when the window has no frame at index
    [depth // 2], and when [hidden] is [None] and the first frame has fewer
    than two dimensions; in every other case an exception it raises comes
    from the runtime. *)
Theorem RlspNet_forward_IndexError p net lr sr h :
  (length lr ≤ net_d net / 2 ∨
   (h = None ∧ ∃ lr0, lr !! 0 = Some lr0 ∧ length (shape lr0) < 2) →
   RlspNet_forward p net lr sr h = Err IndexError) ∧
  (∀ e, RlspNet_forward p net lr sr h = Err e → e ≠ RuntimeError →
        length lr ≤ net_d net / 2 ∨
        (h = None ∧ ∃ lr0, lr !! 0 = Some lr0 ∧ length (shape lr0) < 2)).
Proof.
  split.
  - intros Hcond. unfold RlspNet_forward, initial_hidden, py_index, py_setitem.
    destruct Hcond as [Hlen|(-> & lr0 & Hlr0 & Hrank)].
    + apply lookup_ge_None in Hlen as Hmid. rewrite Hmid.
      destruct h as [h|]; [done|].
      destruct (lr !! 0) as [lr0|]; [|done]. simpl.
      by destruct (decide (1 < length (shape lr0))).
    + rewrite Hlr0. simpl. rewrite decide_False by lia. done.
  - intros e He Hne.
    destruct (decide (length lr ≤ net_d net / 2)) as [|Hlen]; [by left|].
    right. destruct h as [h|].
    + exfalso. apply Hne. eapply RlspNet_forward_Err; [done|lia|done].
    + split; [done|]. destruct lr as [|lr0 lr']; [simpl in Hlen; lia|].
      exists lr0. split; [done|].
      destruct (decide (length (shape lr0) < 2)) as [|Hrank]; [done|].
      exfalso. apply Hne. eapply RlspNet_forward_Err; [done|lia|].
      intros _ x [= <-]. lia.
Qed.

(** X3.  The cell that [RLSPCell.__init__] builds is a chain: its
    [Sequential] has [max(1, layers - 1)] layers, the first one takes
    [in_channels], every layer gives [hidden_channels], which every later
    layer and the two heads take; the head [exit] gives [out_channels] and
    has no activation.  So each of the two outputs of the cell is behind
    [max(2, layers)] convolutions, all of kernel size 3. *)
Theorem RLSPCell_init_chain in_ch out_ch hidden_ch layers :
  let c := RLSPCell_init in_ch out_ch hidden_ch layers in
  length (cell c) = 1 `max` (layers - 1) ∧
  length (cell c) + 1 = 2 `max` layers ∧
  (in_channels <$> cell c) !! 0 = Some in_ch ∧
  (∀ k l, cell c !! S k = Some l → in_channels l = hidden_ch) ∧
  Forall (λ l, out_channels l = hidden_ch ∧ kernel_size l = 3) (cell c) ∧
  in_channels (hidden c) = hidden_ch ∧ out_channels (hidden c) = hidden_ch ∧
  in_channels (exit c) = hidden_ch ∧ out_channels (exit c) = out_ch ∧
  kernel_size (hidden c) = 3 ∧ kernel_size (exit c) = 3 ∧
  activation (exit c) = None.
Proof.
  intros c. subst c. unfold RLSPCell_init, py_range. cbn [cell hidden exit].
  split_and!; try done.
  - cbn [length]. rewrite length_map, length_seq. lia.
  - cbn [length]. rewrite length_map, length_seq. lia.
  - intros k l Hl. rewrite lookup_cons in Hl.
    apply list_elem_of_lookup_2 in Hl.
    by apply list_elem_of_fmap in Hl as (i & -> & _).
  - constructor; [done|]. apply Forall_forall. intros l Hl.
    by apply list_elem_of_fmap in Hl as (i & -> & _).
Qed.

End Network.

(** ** The windows *)

Section Windows.
Context `{T : Torch}.

(** X4.  For an index of [range(clips // 2, n - clips // 2)] the window is
    there: the [clips] frames from [frames[i - clips // 2]] on.  Whatever
    the index, building a window raises nothing but [IndexError]; from the
    index [clips // 2] on it does so only when the window would reach past
    the last frame.  Below [clips // 2], where the loops never get, the
    first indices are negative and count from the end of the sequence: a
    window that is built there starts at
    [frames[len(frames) - (clips // 2 - i)]]. *)
Theorem lr_group_at_in_bounds self frames i :
  (clips self / 2 ≤ i → i < length frames - clips self / 2 →
   lr_group_at self frames i
   = Ok (take (clips self) (drop (i - clips self / 2) frames))) ∧
  (∀ e, lr_group_at self frames i = Err e →
        e = IndexError ∧
        (clips self / 2 ≤ i → length frames < i - clips self / 2 + clips self)) ∧
  (∀ g, lr_group_at self frames i = Ok g → i < clips self / 2 →
        clips self / 2 - i ≤ length frames ∧
        g !! 0 = frames !! (length frames - (clips self / 2 - i))).
Proof.
  split_and!.
  - intros Hlo Hhi. destruct (lr_group_at self frames i) as [g|e] eqn:Hg.
    + by apply lr_group_at_Ok in Hg as [-> _].
    + by destruct (lr_group_at_in_range _ _ _ _ Hg).
  - intros e He. split.
    + unfold lr_group_at in He. apply mapM_res_Err in He as (j & _ & He).
      by eapply py_getitem_Err.
    + intros Hlo. rewrite lr_group_at_centered in He by done.
      unfold py_range in He. rewrite Nat.sub_0_r in He.
      apply mapM_py_index_Err in He as [_ Hlen]. lia.
  - intros g Hg Hi. unfold lr_group_at in Hg. apply mapM_res_Ok in Hg.
    assert (0 < clips self) as Hclips.
    { destruct (clips self); [simpl in Hi|]; lia. }
    assert (py_range 0 (clips self) !! 0 = Some 0) as H0.
    { unfold py_range. apply lookup_seq. lia. }
    destruct (Forall2_lookup_l _ _ _ _ _ Hg H0) as (x & Hx & Hget).
    rewrite Hx. unfold py_getitem in Hget.
    rewrite decide_True in Hget by lia.
    destruct (decide (_ < 0)%Z) as [|Hlen] in Hget; [done|].
    unfold py_index in Hget.
    destruct (frames !! _) as [y|] eqn:Hy in Hget; [|done].
    injection Hget as ->. split; [lia|]. rewrite <- Hy. f_equal. lia.
Qed.

(** X5.  The window slides by one frame: the window of index [i + 1] is the
    window of index [i] without its first frame, followed by the frame
    after the last one of that window. *)
Theorem lr_group_at_slides self frames i g g' :
  0 < clips self →
  clips self / 2 ≤ i →
  lr_group_at self frames i = Ok g →
  lr_group_at self frames (S i) = Ok g' →
  drop 1 g = take (clips self - 1) g' ∧
  g' !! (clips self - 1) = frames !! (i - clips self / 2 + clips self).
Proof.
  intros Hclips Hlo Hg Hg'.
  apply lr_group_at_Ok in Hg as [-> Hlen]; [|done].
  apply lr_group_at_Ok in Hg' as [-> Hlen']; [|lia].
  replace (S i - clips self / 2) with (S (i - clips self / 2)) in * by lia.
  set (k := i - clips self / 2) in *. set (c := clips self) in *.
  split.
  - rewrite take_take, Nat.min_l by lia.
    replace (S k) with (k + 1) by lia. rewrite <- (drop_drop frames 1 k).
    generalize (drop k frames). intros l.
    destruct c as [|c']; [lia|].
    destruct l as [|x l]; [by rewrite !drop_nil, !take_nil|].
    simpl. by rewrite Nat.sub_0_r, drop_0.
  - rewrite lookup_take_lt by lia. rewrite lookup_drop. f_equal. lia.
Qed.

End Windows.

(** ** Training and evaluation calls *)

Section TraceFacts.
Context `{T : Torch}.

Lemma images_app tr1 tr2 : images (tr1 ++ tr2) = images tr1 ++ images tr2.
Proof. unfold images. apply omap_app. Qed.

Lemma images_forwards evs :
  Forall (λ e, ∃ g sr h, e = EvForward g sr h) evs → images evs = [].
Proof.
  induction 1 as [|e evs (g & sr & h & ->) _ IH]; [done|]. by simpl.
Qed.

Lemma optimizer_forwards evs :
  Forall (λ e, ∃ g sr h, e = EvForward g sr h) evs →
  Forall (λ e, is_optimizer_event e = false) evs.
Proof. intros H. eapply Forall_impl; [exact H|]. by intros e (g & sr & h & ->). Qed.

Lemma filter_optimizer_forwards evs :
  Forall (λ e, ∃ g sr h, e = EvForward g sr h) evs →
  filter (λ e, is_optimizer_event e) evs = [].
Proof.
  induction 1 as [|e evs (g & sr & h & ->) _ IH]; [done|].
  rewrite filter_cons_False; [exact IH|]. simpl. tauto.
Qed.

(** The feedback frame a completed loop ends with. *)
Lemma run_last_sr {S} p self frames (sr_of : S → tensor) hid_of post
    st idxs steps st' :
  (∀ st i out next st1, post st i out next = Ok st1 → sr_of st1 = detach out) →
  run p self frames sr_of hid_of post st idxs steps st' →
  sr_of st' = default (sr_of st) ((λ s, detach (s_out s)) <$> last steps).
Proof.
  intros Hpost.
  induction 1 as [st|st i idxs g out next st1 steps st' Hg Hfw Hp Hrun IH];
    [done|].
  rewrite IH, (Hpost _ _ _ _ _ Hp).
  destruct steps as [|s steps]; [reflexivity|]. rewrite last_cons_cons.
  destruct (last (s :: steps)) eqn:Hlast; [reflexivity|].
  by apply last_None in Hlast.
Qed.

End TraceFacts.

Section MoreCalls.
Context `{T : Torch} (self : RLSP).

(** X6.  A training call on a sequence that is too short for one window
    ([n <= 2 * (clips // 2)]) makes no forward pass, calls [zero_grad], and
    raises [AttributeError] at [total_loss.backward()]: [total_loss] is
    still the integer [0]. *)
Theorem train_too_few_frames frames labels learning_rate w first :
  frames !! 0 = Some first →
  is_Some (upsample first (scale self)) →
  length frames ≤ 2 * (clips self / 2) →
  (train self frames labels learning_rate w).1 = Err AttributeError ∧
  new_events w (train self frames labels learning_rate w).2 = [EvZeroGrad] ∧
  w_params (train self frames labels learning_rate w).2 = zero_grad (w_params w).
Proof.
  intros Hfirst [up Hup] Hn.
  destruct (train self frames labels learning_rate w) as [r w'] eqn:Htrain.
  apply train_cases in Htrain
    as (p' & new & -> & [(-> & _)|[(first' & Hf' & Hup' & _)|Hloop]]);
    [done|naive_solver|].
  destruct Hloop as (first' & up' & rl & evs & Hf' & Hup' & Hout & Hafter).
  rewrite py_range_nil in Hout by lia.
  apply outcome_nil in Hout as [-> ->].
  unfold train_after_loop in Hafter. cbn [total_loss] in Hafter.
  destruct Hafter as (-> & -> & ->).
  unfold new_events. cbn [fst snd w_trace w_params].
  by rewrite drop_app_length.
Qed.

(** X7.  A training call that raises has not stepped the optimizer: its
    events hold no [step], and the parameters are those from before the
    call, with at most their gradients zeroed. *)
Theorem train_failure_takes_no_step frames labels learning_rate w e :
  (train self frames labels learning_rate w).1 = Err e →
  Forall (λ ev, ∀ groups, ev ≠ EvStep groups)
    (new_events w (train self frames labels learning_rate w).2) ∧
  (w_params (train self frames labels learning_rate w).2 = w_params w ∨
   w_params (train self frames labels learning_rate w).2 = zero_grad (w_params w)).
Proof.
  destruct (train self frames labels learning_rate w) as [r w'] eqn:Htrain.
  cbn [fst snd]. intros ->.
  apply train_cases in Htrain
    as (p' & new & -> & [(_ & _ & -> & ->)|[(first & _ & _ & _ & -> & ->)|Hloop]]);
    unfold new_events; cbn [w_trace w_params]; rewrite drop_app_length;
    [by split; [|left]..|].
  destruct Hloop as (first & up & rl & evs & _ & _ & Hout & Hafter).
  assert (Hevs : Forall (λ ev, ∀ groups, ev ≠ EvStep groups) evs).
  { eapply Forall_impl; [by eapply outcome_only_forwards|].
    by intros ev (g & sr & h & ->) groups. }
  unfold train_after_loop in Hafter.
  destruct rl as [st|e']; [|by destruct Hafter as (_ & -> & ->); split; [|left]].
  destruct (total_loss st) as [z|total] eqn:Htotal.
  { destruct Hafter as (_ & -> & ->). split; [|by right].
    apply Forall_app. split; [done|]. by repeat constructor. }
  destruct (backward total _) as [p1|].
  2:{ destruct Hafter as (_ & -> & ->). split; [|by right].
      apply Forall_app. split; [done|]. by repeat constructor. }
  exfalso. destruct Hafter as (_ & _ & Hr).
  inversion Hout as [idxs steps st' Hrun|]; subst.
  destruct (py_range (clips self / 2) (length frames - clips self / 2))
    as [|i idxs] eqn:Hidxs.
  { inversion Hrun; subst. done. }
  destruct (train_run_tensors _ _ _ _ _ _ _ _ Hrun) as (t & im & _ & Him); [done|].
  by rewrite Him in Hr.
Qed.

(** X8.  A training call that returns has updated the parameters once:
    [backward] ran on the parameters with zeroed gradients, and the
    optimizer stepped from its result with the parameter groups the call
    leaves.  The optimizer saw [zero_grad], [backward], [step], in this
    order and nothing else; the summary writer saw nothing. *)
Theorem train_updates_parameters_once frames labels learning_rate w d w' :
  train self frames labels learning_rate w = (Ok d, w') →
  ∃ total p1,
    backward total (zero_grad (w_params w)) = Some p1 ∧
    w_params w' = adam_step (w_param_groups w') p1 ∧
    filter (λ ev, is_optimizer_event ev) (new_events w w')
    = [EvZeroGrad; EvBackward total; EvStep (w_param_groups w')] ∧
    images (new_events w w') = [] ∧
    w_writer w' = w_writer w.
Proof.
  intros Htrain.
  apply train_cases in Htrain
    as (p' & new & -> & [(_ & ? & _)|[(first & _ & _ & ? & _)|Hloop]]); [done..|].
  destruct Hloop as (first & up & rl & evs & _ & _ & Hout & Hafter).
  apply outcome_only_forwards in Hout.
  unfold train_after_loop in Hafter.
  destruct rl as [st|e]; [|by destruct Hafter].
  destruct (total_loss st) as [z|total]; [by destruct Hafter|].
  destruct (backward total _) as [p1|] eqn:Hb; [|by destruct Hafter].
  destruct Hafter as (-> & -> & _).
  exists total, p1. unfold new_events. cbn [w_trace w_params w_param_groups w_writer].
  rewrite drop_app_length. split_and!; [done..| | |done].
  - rewrite filter_app, filter_optimizer_forwards by done. done.
  - rewrite images_app, images_forwards by done. done.
Qed.

(** X9.  An evaluation call, whether it returns or raises, leaves the
    parameters, the parameter groups of the optimizer and the writer as
    they are, keeps the trace it found, and adds no event of the optimizer
    to it: no [zero_grad], no [backward], no [step]. *)
Theorem eval_leaves_model_and_optimizer frames labels kwargs w :
  w_params (eval self frames labels kwargs w).2 = w_params w ∧
  w_param_groups (eval self frames labels kwargs w).2 = w_param_groups w ∧
  w_writer (eval self frames labels kwargs w).2 = w_writer w ∧
  take (length (w_trace w)) (w_trace (eval self frames labels kwargs w).2)
  = w_trace w ∧
  Forall (λ ev, is_optimizer_event ev = false)
    (new_events w (eval self frames labels kwargs w).2).
Proof.
  destruct (eval self frames labels kwargs w) as [r w'] eqn:Heval.
  apply eval_cases in Heval as (new & -> & Hcases).
  unfold new_events. cbn [snd w_trace w_params w_param_groups w_writer].
  rewrite take_app_length, drop_app_length. split_and!; [done..|].
  destruct Hcases as [(_ & _ & ->)|[(first & _ & _ & _ & ->)|Hloop]]; [done..|].
  destruct Hloop as (first & up & rl & evs & _ & _ & Hout & Hafter).
  apply outcome_only_forwards, optimizer_forwards in Hout.
  unfold eval_after_loop in Hafter.
  repeat case_match; destruct Hafter as [_ ->]; try done;
    apply Forall_app; split; try done; by repeat constructor.
Qed.

(** X10.  The frames an evaluation call returns are its predictions in the
    order of the processed indices: the [k]-th one is the detached output
    of the [k]-th forward pass, as a numpy array. *)
Theorem eval_predictions_in_order frames labels kwargs w preds metrics w' :
  eval self frames labels kwargs w = (Ok (preds, metrics), w') →
  ∃ steps,
    forwards (new_events w w') = map step_call steps ∧
    map s_i steps = py_range (clips self / 2) (length frames - clips self / 2) ∧
    Forall (λ s, RlspNet_forward (w_params w) (rlsp self) (s_lr s) (s_sr s)
                   (s_hidden s) = Ok (s_out s, s_next s)) steps ∧
    preds = map (λ s, to_numpy (detach (s_out s))) steps.
Proof.
  intros Heval.
  apply eval_cases in Heval
    as (new & -> & [(_ & ? & _)|[(first & _ & _ & ? & _)|Hloop]]); [done..|].
  destruct Hloop as (first & up & rl & evs & _ & _ & Hout & Hafter).
  pose proof (eval_after_loop_forwards _ _ _ _ _ _ _ Hafter) as Hfw.
  unfold eval_after_loop in Hafter.
  destruct rl as [st|e]; [|by destruct Hafter].
  inversion Hout as [idxs steps st' Hrun|]; subst.
  assert (preds = predicts st) as ->.
  { repeat case_match; destruct Hafter as [Hr _]; by simplify_eq. }
  destruct (eval_run_facts _ _ _ _ _ _ _ _ Hrun) as (Hpred & _).
  exists steps. unfold new_events. cbn [w_trace]. rewrite drop_app_length.
  split_and!.
  - by rewrite Hfw, forwards_steps.
  - by eapply run_indices.
  - eapply Forall_impl; [by eapply run_forward|]. by intros s [_ ?].
  - done.
Qed.

(** X11.  An evaluation call without labels returns only where no summary
    writer is registered; its ['psnr'] is then [np.mean] of the empty list,
    however many frames were processed, and it writes no image. *)
Theorem eval_no_labels_empty_psnr frames kwargs w preds metrics w' :
  eval self frames None kwargs w = (Ok (preds, metrics), w') →
  w_writer w = false ∧
  metrics !! "psnr" = Some (np_mean []) ∧
  images (new_events w w') = [].
Proof.
  intros Heval.
  apply eval_cases in Heval
    as (new & -> & [(_ & ? & _)|[(first & _ & _ & ? & _)|Hloop]]); [done..|].
  destruct Hloop as (first & up & rl & evs & _ & _ & Hout & Hafter).
  unfold eval_after_loop in Hafter.
  destruct rl as [st|e]; [|by destruct Hafter].
  inversion Hout as [idxs steps st' Hrun|]; subst.
  destruct (eval_run_facts _ _ _ _ _ _ _ _ Hrun) as (_ & _ & ps & Hps & ->).
  destruct (w_writer w).
  { destruct (kwargs !! "epoch"); by destruct Hafter. }
  destruct Hafter as [[= -> ->] ->]. split_and!; [done| |].
  - by rewrite lookup_insert_eq, Hps.
  - unfold new_events. cbn [w_trace]. rewrite drop_app_length.
    apply images_forwards. by eapply outcome_only_forwards.
Qed.

End MoreCalls.

(** ** Evaluation with a summary writer *)

Section Writer.
Context `{T : Torch} (self : RLSP).

(** X12.  An evaluation call with labels that returns while a summary
    writer is registered has written two images after its last forward
    pass, both under the step [kwargs['epoch']]: ['clean'], the last
    prediction clamped to [0, 1], and ['label'], the label of the last
    processed index.  When no frame was processed these are the zero frame
    and [labels[0]]. *)
Theorem eval_images frames labels kwargs w preds metrics w' :
  w_writer w = true →
  eval self frames (Some labels) kwargs w = (Ok (preds, metrics), w') →
  ∃ step first up steps lbl,
    kwargs !! "epoch" = Some step ∧
    frames !! 0 = Some first ∧ upsample first (scale self) = Some up ∧
    map s_i steps = py_range (clips self / 2) (length frames - clips self / 2) ∧
    Forall (λ s, RlspNet_forward (w_params w) (rlsp self) (s_lr s) (s_sr s)
                   (s_hidden s) = Ok (s_out s, s_next s)) steps ∧
    labels !! default 0 (s_i <$> last steps) = Some lbl ∧
    new_events w w' =
      map step_event steps
      ++ [EvImage "clean"
            (clamp01 (default (zeros_like up)
                        ((λ s, detach (s_out s)) <$> last steps))) step;
          EvImage "label" lbl step].
Proof.
  intros Hwriter Heval.
  apply eval_cases in Heval
    as (new & -> & [(_ & ? & _)|[(first & _ & _ & ? & _)|Hloop]]); [done..|].
  destruct Hloop as (first & up & rl & evs & Hfirst & Hup & Hout & Hafter).
  unfold eval_after_loop in Hafter. rewrite Hwriter in Hafter.
  destruct rl as [st|e]; [|by destruct Hafter].
  inversion Hout as [idxs steps st' Hrun|]; subst.
  destruct (kwargs !! "epoch") as [step|] eqn:Hstep; [|by destruct Hafter].
  destruct (labels !! e_i st) as [lbl|] eqn:Hlbl; [|by destruct Hafter].
  destruct Hafter as [_ ->].
  destruct (eval_run_facts _ _ _ _ _ _ _ _ Hrun) as (_ & Hi & _).
  pose proof (run_indices _ _ _ _ _ _ _ _ _ _ Hrun) as Hidx.
  assert (Hsr : e_last_sr st
                = default (zeros_like up) ((λ s, detach (s_out s)) <$> last steps)).
  { eapply (run_last_sr _ _ _ e_last_sr) in Hrun; [exact Hrun|].
    intros st0 i out next st1 Hp. by apply eval_post_Ok in Hp as (_ & -> & _). }
  exists step, first, up, steps, lbl.
  split_and!; [done..| | |].
  - eapply Forall_impl; [by eapply run_forward|]. by intros s [_ ?].
  - rewrite <- Hlbl, Hi, <- Hidx. f_equal. cbn [e_i].
    by rewrite fmap_last.
  - unfold new_events. cbn [w_trace]. by rewrite drop_app_length, Hsr.
Qed.

End Writer.

Section WriterFailures.
Context `{T : Torch} (scale0 channel0 clips0 layers0 filters0 : nat).
Local Abbreviation self := (RLSP_init scale0 channel0 clips0 layers0 filters0).

(** An evaluation call that the runtime does not interrupt gets through
    its loop. *)
Lemma eval_loop_completes frames labels kwargs w :
  0 < clips self →
  0 < length frames →
  (∀ ls, labels = Some ls → length frames ≤ length ls) →
  Forall (λ f, 2 ≤ length (shape f)) frames →
  raises_runtime_error (eval self frames labels kwargs w).1 = false →
  ∃ first up steps st new,
    frames !! 0 = Some first ∧ upsample first (scale self) = Some up ∧
    run (w_params w) self frames e_last_sr e_last_hidden (eval_post labels)
      (mkEval [] [] (zeros_like up) None 0)
      (py_range (clips self / 2) (length frames - clips self / 2)) steps st ∧
    new_events w (eval self frames labels kwargs w).2 = new ∧
    eval_after_loop labels kwargs (w_writer w) (Ok st) (map step_event steps)
      (eval self frames labels kwargs w).1 new.
Proof.
  intros Hclips Hn Hlabels Hrank Hrt.
  destruct (eval self frames labels kwargs w) as [r w'] eqn:Heval.
  cbn [fst snd] in *.
  apply eval_cases in Heval
    as (new & -> & [(-> & _)|[(first & _ & _ & -> & _)|Hloop]]);
    [cbn [length] in Hn; lia|done|].
  destruct Hloop as (first & up & rl & evs & Hfirst & Hup & Hout & Hafter).
  pose proof (py_range_bounds (clips self / 2) (length frames - clips self / 2))
    as Hb.
  destruct rl as [st|e].
  2:{ destruct Hafter as (-> & _).
      eapply outcome_Err_runtime in Hout as ->; [done..|].
      intros st0 i out next e' Hi He. eapply eval_post_Err; [done|].
      intros ls ->. specialize (Hlabels ls eq_refl).
      rewrite Forall_forall in Hb. apply Hb in Hi. lia. }
  inversion Hout as [idxs steps st' Hrun|]; subst.
  exists first, up, steps, st, new. split_and!; [done..| |done].
  unfold new_events. cbn [w_trace]. by rewrite drop_app_length.
Qed.

(** X13.  Where a summary writer is registered and [kwargs] has no
    ['epoch'], an evaluation call that the runtime does not interrupt
    raises [KeyError], and it does so only after the forward passes of all
    indices; no image is written. *)
Theorem eval_missing_epoch frames labels kwargs w :
  w_writer w = true →
  kwargs !! "epoch" = None →
  0 < clips self →
  0 < length frames →
  (∀ ls, labels = Some ls → length frames ≤ length ls) →
  Forall (λ f, 2 ≤ length (shape f)) frames →
  raises_runtime_error (eval self frames labels kwargs w).1 = false →
  (eval self frames labels kwargs w).1 = Err KeyError ∧
  length (forwards (new_events w (eval self frames labels kwargs w).2))
  = length frames - clips self / 2 - clips self / 2 ∧
  images (new_events w (eval self frames labels kwargs w).2) = [].
Proof.
  intros Hwriter Hepoch Hclips Hn Hlabels Hrank Hrt.
  destruct (eval_loop_completes frames labels kwargs w)
    as (first & up & steps & st & new & _ & _ & Hrun & -> & Hafter); [done..|].
  unfold eval_after_loop in Hafter. rewrite Hwriter, Hepoch in Hafter.
  destruct Hafter as [-> ->]. split_and!; [done| |].
  - rewrite forwards_steps, length_map.
    rewrite <- (length_map s_i), (run_indices _ _ _ _ _ _ _ _ _ _ Hrun).
    unfold py_range. by rewrite length_seq.
  - apply images_forwards, Forall_forall. intros e He.
    apply list_elem_of_fmap in He as (s & -> & _).
    by exists (s_lr s), (s_sr s), (s_hidden s).
Qed.

(** X14.  Where a summary writer is registered and [kwargs] holds
    ['epoch'], an evaluation call without labels that the runtime does not
    interrupt raises [TypeError], after the forward passes of all indices
    and after it has written the ['clean'] image; the ['label'] image is not
    written. *)
Theorem eval_writer_without_labels frames kwargs w step :
  w_writer w = true →
  kwargs !! "epoch" = Some step →
  0 < clips self →
  0 < length frames →
  Forall (λ f, 2 ≤ length (shape f)) frames →
  raises_runtime_error (eval self frames None kwargs w).1 = false →
  (eval self frames None kwargs w).1 = Err TypeError ∧
  length (forwards (new_events w (eval self frames None kwargs w).2))
  = length frames - clips self / 2 - clips self / 2 ∧
  ∃ clean, images (new_events w (eval self frames None kwargs w).2)
           = [("clean", clean, step)].
Proof.
  intros Hwriter Hepoch Hclips Hn Hrank Hrt.
  destruct (eval_loop_completes frames None kwargs w)
    as (first & up & steps & st & new & _ & _ & Hrun & -> & Hafter); [done..|].
  unfold eval_after_loop in Hafter. rewrite Hwriter, Hepoch in Hafter.
  destruct Hafter as [-> ->].
  assert (Hfw : Forall (λ e, ∃ g sr h, e = EvForward g sr h) (map step_event steps)).
  { apply Forall_forall. intros e He.
    apply list_elem_of_fmap in He as (s & -> & _).
    by exists (s_lr s), (s_sr s), (s_hidden s). }
  split_and!; [done| |].
  - rewrite forwards_app, forwards_steps, app_nil_r, length_map.
    rewrite <- (length_map s_i), (run_indices _ _ _ _ _ _ _ _ _ _ Hrun).
    unfold py_range. by rewrite length_seq.
  - eexists. by rewrite images_app, images_forwards.
Qed.

End WriterFailures.

(** ** The loops keep the shapes *)

Section Stability.
Context `{T : Torch} (scale0 channel0 clips0 layers0 filters0 : nat).
Local Abbreviation self := (RLSP_init scale0 channel0 clips0 layers0 filters0).

(** The shapes of the runtime, as for the forward pass, and those of the
    operations of the two loops: the framework's [upsample] scales height
    and width, [zeros_like] keeps the shape, [F.mse_loss] of two tensors of
    one shape is a scalar, as is the sum of an integer or a scalar and a
    scalar; [Metrics.psnr] of two tensors of one shape and [backward] of a
    scalar raise nothing. *)
Hypothesis zeros_shape : ∀ shp, shape (zeros shp) = shp.
Hypothesis zeros_like_shape : ∀ t, shape (zeros_like t) = shape t.
Hypothesis detach_shape : ∀ t, shape (detach t) = shape t.
Hypothesis interpolate_shape : ∀ t k N C H W,
  shape t = [N; C; H; W] →
  ∃ t', interpolate t k = Some t' ∧ shape t' = [N; C; k * H; k * W].
Hypothesis upsample_shape : ∀ t k N C H W,
  shape t = [N; C; H; W] →
  ∃ t', upsample t k = Some t' ∧ shape t' = [N; C; k * H; k * W].
Hypothesis pixel_shuffle_shape : ∀ t k N C H W,
  0 < k → shape t = [N; C * k ^ 2; H; W] →
  ∃ t', pixel_shuffle t k = Some t' ∧ shape t' = [N; C; k * H; k * W].
Hypothesis space_to_depth_shape : ∀ t k N C H W,
  0 < k → shape t = [N; C; k * H; k * W] →
  ∃ t', space_to_depth k t = Some t' ∧ shape t' = [N; C * k ^ 2; H; W].
Hypothesis cat_shape : ∀ ts cs N H W,
  ts ≠ [] → Forall2 (λ t c, shape t = [N; c; H; W]) ts cs →
  ∃ t', cat ts = Some t' ∧ shape t' = [N; sum_list cs; H; W].
Hypothesis conv2d_shape : ∀ p l t N H W,
  kernel_size l = 3 → shape t = [N; in_channels l; H; W] →
  ∃ t', conv2d p l t = Some t' ∧ shape t' = [N; out_channels l; H; W].
Hypothesis add_shape : ∀ a b,
  shape a = shape b → ∃ t', add a b = Some t' ∧ shape t' = shape a.
Hypothesis radd_int_shape : ∀ z t,
  ∃ t', radd_int z t = Some t' ∧ shape t' = shape t.
Hypothesis mse_loss_shape : ∀ a b,
  shape a = shape b → ∃ l, mse_loss a b = Some l ∧ shape l = [].
Hypothesis psnr_defined : ∀ a b, shape a = shape b → is_Some (psnr a b).
Hypothesis backward_scalar : ∀ t p, shape t = [] → is_Some (backward t p).

Context (N H W : nat).
Local Abbreviation lr_shape := [N; channel0; H; W].
Local Abbreviation sr_shape := [N; channel0; scale0 * H; scale0 * W].
Local Abbreviation hidden_shape := [N; filters0; H; W].

(** A forward pass on a window of [clips] frames of the low-resolution
    shape keeps the shapes. *)
Lemma forward_keeps_shapes p lr sr h :
  0 < scale0 →
  0 < clips0 →
  length lr = clips0 →
  Forall (λ t, shape t = lr_shape) lr →
  shape sr = sr_shape →
  (∀ h', h = Some h' → shape h' = hidden_shape) →
  ∃ out next,
    RlspNet_forward p (rlsp self) lr sr h = Ok (out, next) ∧
    shape out = sr_shape ∧ shape next = hidden_shape.
Proof.
  intros Hscale Hdepth Hlen Hlr Hsr Hh.
  assert (∃ hid, match h with
                 | Some h' => Ok h'
                 | None => initial_hidden (rlsp self) lr
                 end = Ok hid ∧ shape hid = hidden_shape)
    as (hid & Hhid & Hhids).
  { destruct h as [h'|]; [exists h'; auto|].
    destruct lr as [|lr0 lr']; [simpl in Hlen; lia|].
    apply Forall_cons in Hlr as [Hlr0 _].
    exists (zeros hidden_shape). split; [|by rewrite zeros_shape].
    unfold initial_hidden, py_index, py_setitem. simpl. by rewrite Hlr0. }
  destruct (lr !! (clips0 / 2)) as [mid|] eqn:Hmid.
  2:{ apply lookup_ge_None in Hmid. pose proof (Nat.div_lt clips0 2). lia. }
  assert (Hmids : shape mid = lr_shape).
  { rewrite Forall_forall in Hlr. by apply Hlr, list_elem_of_lookup_2 with (clips0 / 2). }
  destruct (interpolate_shape mid scale0 _ _ _ _ Hmids) as (center & Hc & Hcs).
  destruct (space_to_depth_shape sr scale0 _ _ _ _ Hscale Hsr)
    as (shuffled & Hs & Hss).
  destruct (cat_shape lr (replicate clips0 channel0) N H W) as (lrc & Hlrc & Hlrcs).
  { intros ->. simpl in Hlen. lia. }
  { rewrite <- Hlen. clear -Hlr. induction Hlr; constructor; auto. }
  assert (Hsum : sum_list (replicate clips0 channel0) = channel0 * clips0).
  { clear. induction clips0 as [|d IH]; simpl; lia. }
  rewrite Hsum in Hlrcs.
  destruct (cat_shape [lrc; hid; detach shuffled]
              [channel0 * clips0; filters0; channel0 * scale0 ^ 2] N H W)
    as (inputs & Hin & Hins); [done| |].
  { repeat constructor; [done..|]. by rewrite detach_shape. }
  replace (sum_list [channel0 * clips0; filters0; channel0 * scale0 ^ 2])
    with (channel0 * clips0 + filters0 + channel0 * scale0 ^ 2) in Hins
    by (simpl; lia).
  destruct (conv2d_shape p (mkConv 0 (channel0 * clips0 + filters0 + channel0 * scale0 ^ 2)
                              filters0 3 (Some "relu")) inputs N H W eq_refl Hins)
    as (x0 & Hx0 & Hx0s).
  cbn [out_channels] in Hx0s.
  destruct (Sequential_forward_shape conv2d_shape p filters0 N H W
              (map (λ i, mkConv i filters0 filters0 3 (Some "relu"))
                 (py_range 1 (layers0 - 1))) x0) as (x & Hx & Hxs); [|done|].
  { apply Forall_forall. intros l Hl.
    by apply list_elem_of_fmap in Hl as (i & -> & _). }
  destruct (conv2d_shape p (hidden (rlspcell (rlsp self))) x N H W eq_refl Hxs)
    as (next & Hn & Hns).
  destruct (conv2d_shape p (exit (rlspcell (rlsp self))) x N H W eq_refl Hxs)
    as (res & Hr & Hrs).
  cbn [out_channels rlsp RLSP_init RlspNet_init RLSPCell_init rlspcell hidden exit]
    in Hns, Hrs.
  destruct (pixel_shuffle_shape res scale0 _ _ _ _ Hscale Hrs) as (up & Hu & Hus).
  destruct (add_shape center up) as (out & Ho & Hos); [congruence|].
  exists out, next. split_and!; [|congruence|done].
  unfold RlspNet_forward, RLSPCell_forward, py_index.
  cbn [rlsp RLSP_init net_d net_s shuffle rlspcell cell hidden exit RlspNet_init
       RLSPCell_init] in Hhid, Hn, Hr |- *.
  rewrite Hhid, Hmid. cbn [mbind res_bind rt].
  rewrite Hc. cbn [mbind res_bind rt].
  rewrite Hs. cbn [mbind res_bind rt].
  rewrite Hlrc. cbn [mbind res_bind rt].
  rewrite Hin. cbn [mbind res_bind rt Sequential_forward].
  rewrite Hx0. cbn [mbind res_bind rt].
  rewrite Hx. cbn [mbind res_bind rt].
  rewrite Hn. cbn [mbind res_bind rt].
  rewrite Hr. cbn [mbind res_bind rt].
  rewrite Hu. cbn [mbind res_bind rt].
  by rewrite Ho.
Qed.

(** A loop whose state has the shapes the network expects keeps them, and
    every prediction has the high-resolution shape. *)
Lemma run_keeps_shapes {S} p frames (sr_of : S → tensor) hid_of post
    (inv : S → Prop) :
  0 < scale0 →
  0 < clips0 →
  Forall (λ f, shape f = lr_shape) frames →
  (∀ st, inv st →
     shape (sr_of st) = sr_shape ∧
     ∀ h, hid_of st = Some h → shape h = hidden_shape) →
  (∀ st i out next st1,
     inv st → shape out = sr_shape → shape next = hidden_shape →
     post st i out next = Ok st1 → inv st1) →
  ∀ st idxs steps st',
    run p self frames sr_of hid_of post st idxs steps st' →
    inv st →
    inv st' ∧ Forall (λ s, shape (s_out s) = sr_shape) steps.
Proof.
  intros Hscale Hclips Hframes Hinv Hpost.
  induction 1 as [st|st i idxs g out next st1 steps st' Hg Hfw Hp Hrun IH];
    intros Hst; [done|].
  apply lr_group_at_elems in Hg as [Hlen Hg].
  destruct (Hinv st Hst) as [Hsr Hh].
  destruct (forward_keeps_shapes p g (sr_of st) (hid_of st))
    as (out' & next' & Hfw' & Hout & Hnext); [done..| |done|done|].
  { rewrite Forall_forall in Hframes |- *. intros f Hf. by apply Hframes, Hg. }
  rewrite Hfw in Hfw'. injection Hfw' as <- <-.
  destruct IH as [Hst' Hsteps]; [by eapply Hpost|].
  split; [done|]. by constructor.
Qed.

(** Such a loop does not raise inside its range. *)
Lemma outcome_keeps_shapes {S} p frames (sr_of : S → tensor) hid_of post
    (inv : S → Prop) st idxs e evs :
  0 < scale0 →
  0 < clips0 →
  Forall (λ f, shape f = lr_shape) frames →
  (∀ st, inv st →
     shape (sr_of st) = sr_shape ∧
     ∀ h, hid_of st = Some h → shape h = hidden_shape) →
  (∀ st i out next st1,
     inv st → shape out = sr_shape → shape next = hidden_shape →
     post st i out next = Ok st1 → inv st1) →
  (∀ st i out next,
     inv st → i ∈ idxs → shape out = sr_shape → shape next = hidden_shape →
     ∃ st1, post st i out next = Ok st1) →
  Forall (λ i, clips self / 2 ≤ i < length frames - clips self / 2) idxs →
  inv st →
  outcome p self frames sr_of hid_of post st idxs (Err e) evs →
  False.
Proof.
  intros Hscale Hclips Hframes Hinv Hpost Hpost_ok Hidxs Hst Hout.
  inversion Hout as [|pre i rest steps st1 e' tail Hrun Hfail]; subst.
  destruct (run_keeps_shapes p frames sr_of hid_of post inv Hscale Hclips Hframes
              Hinv Hpost _ _ _ _ Hrun Hst) as [Hst1 _].
  apply Forall_app in Hidxs as [_ Hi]. apply Forall_cons in Hi as [[Hlo Hhi] _].
  destruct Hfail as [[Hg _]|(g & Hg & _ & Hfail)].
  { by destruct (lr_group_at_in_range _ _ _ _ Hg). }
  apply lr_group_at_Ok in Hg as [Hg Hlen]; [|done].
  destruct (Hinv st1 Hst1) as [Hsr Hh].
  destruct (forward_keeps_shapes p g (sr_of st1) (hid_of st1))
    as (out' & next' & Hfw' & Hout' & Hnext'); [done..| |done|done|].
  { rewrite Hg. rewrite Forall_forall in Hframes |- *. intros f Hf.
    by apply Hframes, (subseteq_drop (i - clips self / 2)), (subseteq_take (clips self)). }
  destruct Hfail as [Hfw|(out & next & Hfw & Hp)]; [congruence|].
  rewrite Hfw in Hfw'. injection Hfw' as <- <-.
  destruct (Hpost_ok st1 i out next) as [st2 Hp2];
    [done|apply elem_of_app; right; apply elem_of_cons; by left|done..|].
  congruence.
Qed.

Local Abbreviation eval_inv := (eval_shapes sr_shape).
Local Abbreviation train_inv := (train_shapes sr_shape hidden_shape).

Lemma py_iadd_scalar acc l :
  (∀ t, acc = PyTensor t → shape t = []) → shape l = [] →
  ∃ t, py_iadd acc l = Ok (PyTensor t) ∧ shape t = [].
Proof.
  intros Hacc Hl. destruct acc as [z|a]; simpl.
  - destruct (radd_int_shape z l) as (t & -> & Ht). exists t. by rewrite Ht.
  - destruct (add_shape a l) as (t & -> & Ht); [by rewrite (Hacc a), Hl|].
    exists t. split; [done|]. by rewrite Ht, (Hacc a).
Qed.

Lemma train_post_keeps_shapes labels st i out next :
  Forall (λ l, shape l = sr_shape) labels →
  i < length labels →
  train_inv st → shape out = sr_shape → shape next = hidden_shape →
  ∃ st1, train_post labels st i out next = Ok st1 ∧ train_inv st1.
Proof.
  intros Hlabels Hi (Hsr & Hh & Htot & Himg) Hout Hnext.
  unfold train_post, py_index.
  destruct (labels !! i) as [lbl|] eqn:Hlbl; [|apply lookup_ge_None in Hlbl; lia].
  assert (shape lbl = sr_shape) as Hl.
  { rewrite Forall_forall in Hlabels. by eapply Hlabels, list_elem_of_lookup_2. }
  destruct (mse_loss_shape out lbl) as (l2 & Hl2 & Hl2s); [congruence|].
  destruct (py_iadd_scalar (total_loss st) l2) as (tot & Ht & Hts); [done..|].
  destruct (py_iadd_scalar (image_loss st) (detach l2)) as (img & Him & Hims);
    [done|by rewrite detach_shape|].
  eexists. cbn [mbind res_bind]. rewrite Hl2. cbn [mbind res_bind rt].
  rewrite Ht. cbn [mbind res_bind]. rewrite Him. cbn [mbind res_bind].
  split; [done|]. split_and!; cbn [last_sr last_hidden total_loss image_loss].
  - by rewrite detach_shape.
  - by intros h [= <-].
  - by intros t [= <-].
  - by intros t [= <-].
Qed.

Lemma eval_post_keeps_shapes labels st i out next :
  (∀ ls, labels = Some ls →
     i < length ls ∧ Forall (λ l, shape l = sr_shape) ls) →
  eval_inv st → shape out = sr_shape →
  ∃ st1, eval_post labels st i out next = Ok st1 ∧ eval_inv st1.
Proof.
  intros Hlabels [Hsr Hh] Hout. unfold eval_post, py_index.
  destruct labels as [ls|].
  - destruct (Hlabels ls eq_refl) as [Hi Hls].
    destruct (ls !! i) as [lbl|] eqn:Hlbl; [|apply lookup_ge_None in Hlbl; lia].
    assert (shape lbl = sr_shape) as Hl.
    { rewrite Forall_forall in Hls. by eapply Hls, list_elem_of_lookup_2. }
    destruct (psnr_defined out lbl) as [v Hv]; [congruence|].
    eexists. cbn [mbind res_bind]. rewrite Hv. cbn [rt]. split; [done|].
    split; cbn [e_last_sr e_last_hidden]; [by rewrite detach_shape|done].
  - eexists. split; [done|].
    split; cbn [e_last_sr e_last_hidden]; [by rewrite detach_shape|done].
Qed.

Lemma eval_inv_facts st :
  eval_inv st →
  shape (e_last_sr st) = sr_shape ∧
  ∀ h, e_last_hidden st = Some h → shape h = hidden_shape.
Proof. intros [Hsr Hh]. split; [done|]. by rewrite Hh. Qed.

Lemma train_inv_facts st :
  train_inv st →
  shape (last_sr st) = sr_shape ∧
  ∀ h, last_hidden st = Some h → shape h = hidden_shape.
Proof. by intros (Hsr & Hh & _). Qed.

Lemma rank_of_lr_shape frames :
  Forall (λ f, shape f = lr_shape) frames →
  Forall (λ f, 2 ≤ length (shape f)) frames.
Proof.
  intros Hall. eapply Forall_impl; [exact Hall|]. intros f ->. simpl. lia.
Qed.

(** X15.  Evaluation keeps the shapes.  On frames of one shape
    [[N; C; H; W]] (with labels of shape [[N; C; scale * H; scale * W]],
    where given) no operation of an evaluation call meets a shape it
    rejects: the call returns, and each of its predictions has the shape
    [[N; C; scale * H; scale * W]].  (With a summary writer, [kwargs] has to
    hold ['epoch'] and labels have to be given.) *)
Theorem eval_keeps_shapes frames labels kwargs w :
  0 < scale0 →
  0 < clips0 →
  0 < length frames →
  Forall (λ f, shape f = lr_shape) frames →
  (∀ ls, labels = Some ls →
     length frames ≤ length ls ∧ Forall (λ l, shape l = sr_shape) ls) →
  (w_writer w = true → is_Some (kwargs !! "epoch") ∧ is_Some labels) →
  ∃ preds metrics w' steps,
    eval self frames labels kwargs w = (Ok (preds, metrics), w') ∧
    forwards (new_events w w') = map step_call steps ∧
    map s_i steps = py_range (clips self / 2) (length frames - clips self / 2) ∧
    Forall (λ s, RlspNet_forward (w_params w) (rlsp self) (s_lr s) (s_sr s)
                   (s_hidden s) = Ok (s_out s, s_next s) ∧
                 shape (s_out s) = sr_shape) steps ∧
    preds = map (λ s, to_numpy (detach (s_out s))) steps.
Proof.
  intros Hscale Hclips Hn Hframes Hlabels Hwriter.
  pose proof (py_range_bounds (clips self / 2) (length frames - clips self / 2))
    as Hb.
  assert (Hinit : ∀ first up, frames !! 0 = Some first →
                    upsample first (scale self) = Some up →
                    eval_inv (mkEval [] [] (zeros_like up) None 0)).
  { intros first up Hfirst Hup. split; [|done]. cbn [e_last_sr].
    rewrite zeros_like_shape.
    destruct (upsample_shape first scale0 N channel0 H W) as (up' & Hup' & Hs).
    { rewrite Forall_forall in Hframes. by eapply Hframes, list_elem_of_lookup_2. }
    cbn [scale RLSP_init] in Hup. congruence. }
  assert (Hpost : ∀ st i out next st1,
            eval_inv st → shape out = sr_shape → shape next = hidden_shape →
            eval_post labels st i out next = Ok st1 → eval_inv st1).
  { intros st i out next st1 [Hsr Hh] Hout _ Hp.
    apply eval_post_Ok in Hp as (_ & Hsr1 & Hh1 & _).
    split; [by rewrite Hsr1, detach_shape|congruence]. }
  assert (Hrt : raises_runtime_error (eval self frames labels kwargs w).1 = false).
  { destruct (eval self frames labels kwargs w) as [r w'] eqn:Heval.
    cbn [fst]. apply eval_cases in Heval
      as (new & _ & [(-> & _)|[(first & Hfirst & Hup & _)|Hloop]]).
    - cbn [length] in Hn. lia.
    - destruct (upsample_shape first scale0 N channel0 H W) as (up' & Hup' & _).
      { rewrite Forall_forall in Hframes.
        by eapply Hframes, list_elem_of_lookup_2. }
      cbn [scale RLSP_init] in Hup. congruence.
    - destruct Hloop as (first & up & rl & evs & Hfirst & Hup & Hout & Hafter).
      destruct rl as [st|e].
      + unfold eval_after_loop in Hafter.
        repeat case_match; destruct Hafter as [-> _]; reflexivity.
      + exfalso.
        eapply (outcome_keeps_shapes _ _ _ _ _ eval_inv _ _ _ _ Hscale Hclips
                  Hframes eval_inv_facts Hpost _ Hb _ Hout).
        Unshelve. 2:{ by eapply Hinit. }
        intros st i out next Hst Hi Hout' _.
        destruct (eval_post_keeps_shapes labels st i out next) as (st1 & Hp & _);
          [|done|done|by exists st1].
        intros ls ->. destruct (Hlabels ls eq_refl) as [Hlen Hls].
        split; [|done]. rewrite Forall_forall in Hb. apply Hb in Hi. lia. }
  destruct (eval_returns scale0 channel0 clips0 layers0 filters0 frames labels kwargs w)
    as (first & up & steps & st & w' & Hfirst & Hup & Hrun & Heval & Hfw);
    [done|done|by intros ls Hls; destruct (Hlabels ls Hls); lia
    |by apply rank_of_lr_shape| |done|].
  { intros Hw. destruct (Hwriter Hw) as [Hepoch [ls ->]]. split; [done|].
    exists ls. split; [done|]. destruct (Hlabels ls eq_refl). lia. }
  destruct (run_keeps_shapes _ _ _ _ _ eval_inv Hscale Hclips Hframes eval_inv_facts
              Hpost _ _ _ _ Hrun) as [_ Hshapes]; [by eapply Hinit|].
  destruct (eval_run_facts _ _ _ _ _ _ _ _ Hrun) as (Hpred & _).
  eexists _, _, w', steps. split_and!; [exact Heval|done| | |done].
  - by eapply run_indices.
  - apply Forall_and. split; [|done].
    eapply Forall_impl; [by eapply run_forward|]. by intros s [_ ?].
Qed.

(** X16.  Training keeps the shapes.  On frames of one shape
    [[N; C; H; W]] and labels of shape [[N; C; scale * H; scale * W]], with
    a frame to process, no operation of a training call meets a shape it
    rejects: every forward pass succeeds, every prediction has the shape
    of its label, the summed loss is a scalar, and the call returns. *)
Theorem train_keeps_shapes frames labels learning_rate w :
  0 < scale0 →
  0 < clips0 →
  2 * (clips self / 2) < length frames →
  length frames ≤ length labels →
  Forall (λ f, shape f = lr_shape) frames →
  Forall (λ l, shape l = sr_shape) labels →
  ∃ d w' steps total,
    train self frames labels learning_rate w = (Ok d, w') ∧
    new_events w w' =
      map step_event steps
      ++ [EvZeroGrad; EvBackward total; EvStep (w_param_groups w')] ∧
    map s_i steps = py_range (clips self / 2) (length frames - clips self / 2) ∧
    Forall (λ s, RlspNet_forward (w_params w) (rlsp self) (s_lr s) (s_sr s)
                   (s_hidden s) = Ok (s_out s, s_next s) ∧
                 shape (s_out s) = sr_shape) steps ∧
    shape total = [].
Proof.
  intros Hscale Hclips Hn Hlen Hframes Hlabels.
  pose proof (py_range_bounds (clips self / 2) (length frames - clips self / 2))
    as Hb.
  assert (Hinit : ∀ first up, frames !! 0 = Some first →
                    upsample first (scale self) = Some up →
                    train_inv (mkTrain (PyInt 0) (PyInt 0) None (zeros_like up))).
  { intros first up Hfirst Hup. split_and!; [|done..]. cbn [last_sr].
    rewrite zeros_like_shape.
    destruct (upsample_shape first scale0 N channel0 H W) as (up' & Hup' & Hs).
    { rewrite Forall_forall in Hframes. by eapply Hframes, list_elem_of_lookup_2. }
    cbn [scale RLSP_init] in Hup. congruence. }
  assert (Hpost_ok : ∀ st i out next,
            train_inv st →
            i ∈ py_range (clips self / 2) (length frames - clips self / 2) →
            shape out = sr_shape → shape next = hidden_shape →
            ∃ st1, train_post labels st i out next = Ok st1 ∧ train_inv st1).
  { intros st i out next Hst Hi Hout Hnext.
    apply train_post_keeps_shapes; [done| |done..].
    rewrite Forall_forall in Hb. apply Hb in Hi. lia. }
  assert (Hpost : ∀ st i out next st1,
            train_inv st → shape out = sr_shape → shape next = hidden_shape →
            train_post labels st i out next = Ok st1 → train_inv st1).
  { intros st i out next st1 Hst Hout Hnext Hp.
    pose proof Hp as Hp'.
    apply train_post_Ok in Hp' as (lbl & l2 & Hlbl & _).
    destruct (train_post_keeps_shapes labels st i out next) as (st2 & Hp2 & Hst2);
      [done|by eapply lookup_lt_Some|done..|].
    congruence. }
  assert (Hrt : raises_runtime_error
                  (train self frames labels learning_rate w).1 = false).
  { destruct (train self frames labels learning_rate w) as [r w'] eqn:Htrain.
    cbn [fst]. apply train_cases in Htrain
      as (p' & new & _ & [(-> & _)|[(first & Hfirst & Hup & _)|Hloop]]).
    - cbn [length] in Hn. lia.
    - destruct (upsample_shape first scale0 N channel0 H W) as (up' & Hup' & _).
      { rewrite Forall_forall in Hframes.
        by eapply Hframes, list_elem_of_lookup_2. }
      cbn [scale RLSP_init] in Hup. congruence.
    - destruct Hloop as (first & up & rl & evs & Hfirst & Hup & Hout & Hafter).
      destruct rl as [st|e].
      + inversion Hout as [idxs steps st' Hrun|]; subst.
        destruct (run_keeps_shapes _ _ _ _ _ train_inv Hscale Hclips Hframes
                    train_inv_facts Hpost _ _ _ _ Hrun) as [Hst _];
          [by eapply Hinit|].
        destruct Hst as (_ & _ & Htot & _).
        unfold train_after_loop in Hafter.
        destruct (total_loss st) as [z|total]; [by destruct Hafter as [-> _]|].
        destruct (backward_scalar total (zero_grad (w_params w))) as [p1 Hp1];
          [by apply Htot|].
        rewrite Hp1 in Hafter. destruct Hafter as (_ & _ & Hr).
        destruct (image_loss st); by rewrite Hr.
      + exfalso.
        eapply (outcome_keeps_shapes _ _ _ _ _ train_inv _ _ _ _ Hscale Hclips
                  Hframes train_inv_facts Hpost _ Hb _ Hout).
        Unshelve. 2:{ by eapply Hinit. }
        intros st i out next Hst Hi Hout' Hnext'.
        destruct (Hpost_ok st i out next) as (st1 & Hp & _); [done..|].
        by exists st1. }
  destruct (train_returns scale0 channel0 clips0 layers0 filters0
              frames labels learning_rate w)
    as (first & up & steps & st & total & image & w' & Hfirst & Hup & Hrun & Ht
        & Hi & Htrain & Hnew);
    [done|done|lia|by apply rank_of_lr_shape|done|].
  destruct (run_keeps_shapes _ _ _ _ _ train_inv Hscale Hclips Hframes
              train_inv_facts Hpost _ _ _ _ Hrun) as [Hst Hshapes];
    [by eapply Hinit|].
  destruct Hst as (_ & _ & Htot & _).
  eexists _, w', steps, total. split_and!; [exact Htrain|done| | |by apply Htot].
  - by eapply run_indices.
  - apply Forall_and. split; [|done].
    eapply Forall_impl; [by eapply run_forward|]. by intros s [_ ?].
Qed.

End Stability.

(** ** Concrete runs of the further properties *)

Lemma sym_binop_shape op out (a b : sym) :
  sym_shape a = sym_shape b →
  ∃ t, sym_binop op out a b = Some t ∧ sym_shape t = out (sym_shape a).
Proof.
  intros Hab. unfold sym_binop. rewrite bool_decide_eq_true_2 by done.
  by eexists.
Qed.

(** X1 on the window [lr3]. *)
Lemma RlspNet_forward_hidden_default_witness :
  RlspNet_forward (0 : @params SymTorch) (rlsp (sym_model 3)) lr3
    (Sym "zeros" [] [] [1; 1; 4; 4]) None
  = RlspNet_forward (0 : @params SymTorch) (rlsp (sym_model 3)) lr3
      (Sym "zeros" [] [] [1; 1; 4; 4])
      (Some (zeros (1 :: net_f (rlsp (sym_model 3)) :: [2; 2]))).
Proof.
  apply (RlspNet_forward_hidden_default (T := SymTorch) 0 (rlsp (sym_model 3)) lr3
           (Sym "zeros" [] [] [1; 1; 4; 4]) (frame 0 [1; 1; 2; 2]) 1 1 [2; 2]).
  - reflexivity.
  - reflexivity.
Defined.

(** X2 on an empty window. *)
Lemma RlspNet_forward_IndexError_witness :
  RlspNet_forward (0 : @params SymTorch) (rlsp (sym_model 3)) []
    (Sym "zeros" [] [] [1; 1; 4; 4]) None = Err IndexError.
Proof.
  apply (RlspNet_forward_IndexError (T := SymTorch) 0 (rlsp (sym_model 3)) []
           (Sym "zeros" [] [] [1; 1; 4; 4]) None).
  left. vm_compute. lia.
Defined.

(** X4 at index 2 of four frames, inside the range of the loops, and at
    index 0, below it, where the window starts at the last frame. *)
Lemma lr_group_at_in_bounds_witness :
  lr_group_at (T := SymTorch) (sym_model 3) lr4 2 = Ok (drop 1 lr4) ∧
  lr_group_at (T := SymTorch) (sym_model 3) lr4 0
  = Ok [frame 3 [1; 1; 2; 2]; frame 0 [1; 1; 2; 2]; frame 1 [1; 1; 2; 2]] ∧
  [frame 3 [1; 1; 2; 2]; frame 0 [1; 1; 2; 2]; frame 1 [1; 1; 2; 2]] !! 0
  = lr4 !! (length lr4 - (clips (sym_model 3) / 2 - 0)).
Proof.
  destruct (lr_group_at_in_bounds (T := SymTorch) (sym_model 3) lr4 2)
    as (Hinside & _ & _).
  destruct (lr_group_at_in_bounds (T := SymTorch) (sym_model 3) lr4 0)
    as (_ & _ & Hbelow).
  split_and!.
  - apply Hinside; vm_compute; lia.
  - vm_compute. reflexivity.
  - apply Hbelow; [vm_compute; reflexivity|vm_compute; lia].
Defined.

(** X5 at the indices 1 and 2 of four frames. *)
Lemma lr_group_at_slides_witness :
  drop 1 lr3 = take (clips (sym_model 3) - 1) (drop 1 lr4) ∧
  drop 1 lr4 !! (clips (sym_model 3) - 1)
  = lr4 !! (1 - clips (sym_model 3) / 2 + clips (sym_model 3)).
Proof.
  apply (lr_group_at_slides (T := SymTorch) (sym_model 3) lr4 1 lr3 (drop 1 lr4)).
  - vm_compute; lia.
  - vm_compute; lia.
  - vm_compute. reflexivity.
  - vm_compute. reflexivity.
Defined.

(** X6 on two frames with three clips. *)
Lemma train_too_few_frames_witness :
  (train (T := SymTorch) (sym_model 3) lr2 hr4 None (sym_world false)).1 = Err AttributeError ∧
  new_events (sym_world false) (train (T := SymTorch) (sym_model 3) lr2 hr4 None (sym_world false)).2
  = [EvZeroGrad] ∧
  w_params (train (T := SymTorch) (sym_model 3) lr2 hr4 None (sym_world false)).2
  = zero_grad (w_params (sym_world false)).
Proof.
  apply (train_too_few_frames (T := SymTorch) (sym_model 3) lr2 hr4 None
           (sym_world false) (frame 0 [1; 1; 2; 2])).
  - reflexivity.
  - vm_compute. by eexists.
  - vm_compute; lia.
Defined.

(** X7 on the same call. *)
Lemma train_failure_takes_no_step_witness :
  Forall (λ ev, ∀ groups, ev ≠ EvStep groups)
    (new_events (sym_world false)
       (train (T := SymTorch) (sym_model 3) lr2 hr4 None (sym_world false)).2) ∧
  (w_params (train (T := SymTorch) (sym_model 3) lr2 hr4 None (sym_world false)).2
   = w_params (sym_world false) ∨
   w_params (train (T := SymTorch) (sym_model 3) lr2 hr4 None (sym_world false)).2
   = zero_grad (w_params (sym_world false))).
Proof.
  apply (train_failure_takes_no_step (T := SymTorch) (sym_model 3) lr2 hr4 None
           (sym_world false) AttributeError).
  vm_compute. reflexivity.
Defined.

(** X8 on four frames with three clips. *)
Lemma train_updates_parameters_once_witness :
  ∃ d w' total p1,
    train (T := SymTorch) (sym_model 3) lr4 hr4 None (sym_world false) = (Ok d, w') ∧
    backward total (zero_grad (w_params (sym_world false))) = Some p1 ∧
    w_params w' = adam_step (w_param_groups w') p1 ∧
    filter (λ ev, is_optimizer_event ev) (new_events (sym_world false) w')
    = [EvZeroGrad; EvBackward total; EvStep (w_param_groups w')] ∧
    images (new_events (sym_world false) w') = [] ∧
    w_writer w' = w_writer (sym_world false).
Proof.
  destruct (train (T := SymTorch) (sym_model 3) lr4 hr4 None (sym_world false)) as [[d|e] w']
    eqn:Htrain; [|vm_compute in Htrain; discriminate].
  destruct (train_updates_parameters_once (T := SymTorch) (sym_model 3) lr4 hr4
              None (sym_world false) d w' Htrain) as (total & p1 & H).
  by exists d, w', total, p1.
Defined.

(** X10 on four frames with three clips. *)
Lemma eval_predictions_in_order_witness :
  ∃ preds metrics w' steps,
    eval (T := SymTorch) (sym_model 3) lr4 (Some hr4) ∅ (sym_world false)
      = (Ok (preds, metrics), w') ∧
    forwards (new_events (sym_world false) w') = map step_call steps ∧
    map s_i steps = py_range (clips (sym_model 3) / 2)
                      (length lr4 - clips (sym_model 3) / 2) ∧
    Forall (λ s, RlspNet_forward (w_params (sym_world false)) (rlsp (sym_model 3))
                   (s_lr s) (s_sr s) (s_hidden s) = Ok (s_out s, s_next s)) steps ∧
    preds = map (λ s, to_numpy (detach (s_out s))) steps.
Proof.
  destruct (eval (T := SymTorch) (sym_model 3) lr4 (Some hr4) ∅ (sym_world false))
    as [[[preds metrics]|e] w'] eqn:Heval; [|vm_compute in Heval; discriminate].
  destruct (eval_predictions_in_order (T := SymTorch) (sym_model 3) lr4 (Some hr4)
              ∅ (sym_world false) preds metrics w' Heval) as (steps & H).
  by exists preds, metrics, w', steps.
Defined.

(** X11 on four frames with three clips. *)
Lemma eval_no_labels_empty_psnr_witness :
  ∃ preds metrics w',
    eval (T := SymTorch) (sym_model 3) lr4 None ∅ (sym_world false) = (Ok (preds, metrics), w') ∧
    w_writer (sym_world false) = false ∧
    metrics !! "psnr" = Some (np_mean []) ∧
    images (new_events (sym_world false) w') = [].
Proof.
  destruct (eval (T := SymTorch) (sym_model 3) lr4 None ∅ (sym_world false))
    as [[[preds metrics]|e] w'] eqn:Heval; [|vm_compute in Heval; discriminate].
  exists preds, metrics, w'. split; [done|].
  exact (eval_no_labels_empty_psnr (T := SymTorch) (sym_model 3) lr4 ∅ (sym_world false)
           preds metrics w' Heval).
Defined.

(** X12 on four frames with three clips, in epoch 1. *)
Lemma eval_images_witness :
  ∃ preds metrics w' step first up steps lbl,
    eval (T := SymTorch) (sym_model 3) lr4 (Some hr4) {[ "epoch" := 1%Z ]} (sym_world true)
      = (Ok (preds, metrics), w') ∧
    ({[ "epoch" := 1%Z ]} : gmap string Z) !! "epoch" = Some step ∧
    lr4 !! 0 = Some first ∧ upsample first (scale (sym_model 3)) = Some up ∧
    map s_i steps = py_range (clips (sym_model 3) / 2)
                      (length lr4 - clips (sym_model 3) / 2) ∧
    Forall (λ s, RlspNet_forward (w_params (sym_world true)) (rlsp (sym_model 3))
                   (s_lr s) (s_sr s) (s_hidden s) = Ok (s_out s, s_next s)) steps ∧
    hr4 !! default 0 (s_i <$> last steps) = Some lbl ∧
    new_events (sym_world true) w' =
      map step_event steps
      ++ [EvImage "clean"
            (clamp01 (default (zeros_like up)
                        ((λ s, detach (s_out s)) <$> last steps))) step;
          EvImage "label" lbl step].
Proof.
  destruct (eval (T := SymTorch) (sym_model 3) lr4 (Some hr4) {[ "epoch" := 1%Z ]} (sym_world true))
    as [[[preds metrics]|e] w'] eqn:Heval; [|vm_compute in Heval; discriminate].
  destruct (eval_images (T := SymTorch) (sym_model 3) lr4 hr4 {[ "epoch" := 1%Z ]}
              (sym_world true) preds metrics w' eq_refl Heval)
    as (step & first & up & steps & lbl & H).
  by exists preds, metrics, w', step, first, up, steps, lbl.
Defined.

(** X13 on four frames with three clips. *)
Lemma eval_missing_epoch_witness :
  (eval (T := SymTorch) (sym_model 3) lr4 (Some hr4) ∅ (sym_world true)).1 = Err KeyError ∧
  length (forwards (new_events (sym_world true)
                      (eval (T := SymTorch) (sym_model 3) lr4 (Some hr4) ∅ (sym_world true)).2))
  = length lr4 - clips (sym_model 3) / 2 - clips (sym_model 3) / 2 ∧
  images (new_events (sym_world true)
            (eval (T := SymTorch) (sym_model 3) lr4 (Some hr4) ∅ (sym_world true)).2) = [].
Proof.
  apply (eval_missing_epoch (T := SymTorch) 2 1 3 3 4).
  - reflexivity.
  - reflexivity.
  - vm_compute; lia.
  - vm_compute; lia.
  - intros ls [= <-]. vm_compute; lia.
  - vm_compute. repeat constructor.
  - vm_compute. reflexivity.
Defined.

(** X14 on four frames with three clips, in epoch 1. *)
Lemma eval_writer_without_labels_witness :
  (eval (T := SymTorch) (sym_model 3) lr4 None {[ "epoch" := 1%Z ]} (sym_world true)).1
  = Err TypeError ∧
  length (forwards
            (new_events (sym_world true)
               (eval (T := SymTorch) (sym_model 3) lr4 None {[ "epoch" := 1%Z ]}
                  (sym_world true)).2))
  = length lr4 - clips (sym_model 3) / 2 - clips (sym_model 3) / 2 ∧
  ∃ clean,
    images (new_events (sym_world true)
              (eval (T := SymTorch) (sym_model 3) lr4 None {[ "epoch" := 1%Z ]}
                 (sym_world true)).2)
    = [("clean", clean, 1%Z)].
Proof.
  apply (eval_writer_without_labels (T := SymTorch) 2 1 3 3 4).
  - reflexivity.
  - reflexivity.
  - vm_compute; lia.
  - vm_compute; lia.
  - vm_compute. repeat constructor.
  - vm_compute. reflexivity.
Defined.

(** X15 on four frames of 2 x 2 pixels with labels of 4 x 4 pixels. *)
Lemma eval_keeps_shapes_witness :
  ∃ preds metrics w' steps,
    eval (T := SymTorch) (sym_model 3) lr4 (Some hr4) ∅ (sym_world false)
      = (Ok (preds, metrics), w') ∧
    forwards (new_events (sym_world false) w') = map step_call steps ∧
    map s_i steps = py_range (clips (sym_model 3) / 2)
                      (length lr4 - clips (sym_model 3) / 2) ∧
    Forall (λ s, RlspNet_forward (w_params (sym_world false)) (rlsp (sym_model 3))
                   (s_lr s) (s_sr s) (s_hidden s) = Ok (s_out s, s_next s) ∧
                 shape (s_out s) = [1; 1; 2 * 2; 2 * 2]) steps ∧
    preds = map (λ s, to_numpy (detach (s_out s))) steps.
Proof.
  apply (eval_keeps_shapes (T := SymTorch) 2 1 3 3 4).
  - reflexivity.
  - reflexivity.
  - reflexivity.
  - apply sym_resize_shape.
  - apply sym_resize_shape.
  - apply sym_pixel_shuffle_shape.
  - apply sym_space_to_depth_shape.
  - apply sym_cat_shape.
  - apply sym_conv2d_shape.
  - apply sym_add_shape.
  - intros a b Hab. destruct (sym_binop_shape "psnr" (λ _, []) a b Hab) as (v & Hv & _).
    by exists v.
  - lia.
  - lia.
  - vm_compute; lia.
  - vm_compute. repeat constructor.
  - intros ls [= <-]. split; [vm_compute; lia|]. vm_compute. repeat constructor.
  - discriminate.
Defined.

(** X16 on the same frames and labels. *)
Lemma train_keeps_shapes_witness :
  ∃ d w' steps total,
    train (T := SymTorch) (sym_model 3) lr4 hr4 None (sym_world false) = (Ok d, w') ∧
    new_events (sym_world false) w' =
      map step_event steps
      ++ [EvZeroGrad; EvBackward total; EvStep (w_param_groups w')] ∧
    map s_i steps = py_range (clips (sym_model 3) / 2)
                      (length lr4 - clips (sym_model 3) / 2) ∧
    Forall (λ s, RlspNet_forward (w_params (sym_world false)) (rlsp (sym_model 3))
                   (s_lr s) (s_sr s) (s_hidden s) = Ok (s_out s, s_next s) ∧
                 shape (s_out s) = [1; 1; 2 * 2; 2 * 2]) steps ∧
    shape total = [].
Proof.
  apply (train_keeps_shapes (T := SymTorch) 2 1 3 3 4).
  - reflexivity.
  - reflexivity.
  - reflexivity.
  - apply sym_resize_shape.
  - apply sym_resize_shape.
  - apply sym_pixel_shuffle_shape.
  - apply sym_space_to_depth_shape.
  - apply sym_cat_shape.
  - apply sym_conv2d_shape.
  - apply sym_add_shape.
  - intros z t. by eexists.
  - intros a b Hab. apply (sym_binop_shape "mse_loss" (λ _, []) a b Hab).
  - intros t p _. by eexists.
  - lia.
  - lia.
  - vm_compute; lia.
  - vm_compute; lia.
  - vm_compute. repeat constructor.
  - vm_compute. repeat constructor.
Defined.


(** X18 for the second forward pass of an evaluation call on four frames. *)
Lemma eval_hidden_state_always_none_witness :
  ∃ g sr h,
    forwards (new_events (sym_world false)
                (eval (T := SymTorch) (sym_model 3) lr4 (Some hr4) ∅ (sym_world false)).2) !! 1
    = Some (g, sr, h) ∧
    h = None.
Proof.
  destruct (forwards (new_events (sym_world false)
                        (eval (T := SymTorch) (sym_model 3) lr4 (Some hr4) ∅ (sym_world false)).2)
            !! 1) as [[[g sr] h]|] eqn:Hcall; [|vm_compute in Hcall; discriminate].
  exists g, sr, h. split; [done|].
  exact (eval_hidden_state_always_none (T := SymTorch) 2 1 3 3 4 lr4 (Some hr4) ∅
           (sym_world false) 1 g sr h Hcall).
Defined.
